(** * sepmd: Markdown tokenizer, heading-depth segmenter, serializer and
    tiered copy

    A shallow embedding of [src/src/main.tsx] (tokenize, toSegments,
    segmentToMarkdown, trimEmptyJoin, copyText) and of the second variant
    of the application ([smartCopy], [copyWithExecCommand],
    [splitMarkdownByHeading]).

    JavaScript strings are sequences of UTF-16 code units; they are
    modelled as [list N].  The regular expressions of the source are
    rendered as the deterministic scanners they denote; each comment
    quotes the expression and says why the scanner is the same
    function. *)

From Stdlib Require Import NArith List Bool Lia String Ascii.
From stdpp Require Import base list.
Import ListNotations.

Local Open Scope N_scope.

(** ** Strings as code-unit sequences *)

Module JSString.

Definition str := list N.

(** ASCII literal to code units, for readable examples. *)
Definition u (s : string) : str :=
  List.map N_of_ascii (list_ascii_of_string s).

Definition LF : N := 10.
Definition CR : N := 13.
Definition BACKTICK : N := 96.
Definition TILDE : N := 126.
Definition HASH : N := 35.
Definition SPACE : N := 32.

(** ECMAScript LineTerminator: LF, CR, U+2028, U+2029.  The regex atom
    [.] (no [s] flag) matches every code unit but these. *)
Definition is_line_terminator (c : N) : bool :=
  (c =? 10) || (c =? 13) || (c =? 8232) || (c =? 8233).

(** ECMAScript [\s] and the set removed by [String.prototype.trim]:
    WhiteSpace and LineTerminator. *)
Definition is_space (c : N) : bool :=
  (c =? 9) || (c =? 10) || (c =? 11) || (c =? 12) || (c =? 13) ||
  (c =? 32) || (c =? 160) || (c =? 5760) ||
  ((8192 <=? c) && (c <=? 8202)) ||
  (c =? 8232) || (c =? 8233) || (c =? 8239) || (c =? 8287) ||
  (c =? 12288) || (c =? 65279).

Definition is_dot (c : N) : bool := negb (is_line_terminator c).

Fixpoint dropWhile {A} (p : A -> bool) (l : list A) : list A :=
  match l with
  | [] => []
  | x :: t => if p x then dropWhile p t else l
  end.

Fixpoint takeWhile {A} (p : A -> bool) (l : list A) : list A :=
  match l with
  | [] => []
  | x :: t => if p x then x :: takeWhile p t else []
  end.

(** [s.trim()] *)
Definition trim (s : str) : str :=
  rev (dropWhile is_space (rev (dropWhile is_space s))).

(** [lines.join("\n")] *)
Fixpoint joinNl (ls : list str) : str :=
  match ls with
  | [] => []
  | [l] => l
  | l :: ls' => l ++ LF :: joinNl ls'
  end.

(** [s.split("\n")]: never empty, the empty string gives one empty
    line. *)
Fixpoint splitNl (s : str) : list str :=
  match s with
  | [] => [[]]
  | c :: t =>
      if c =? LF then [] :: splitNl t
      else match splitNl t with
           | l :: ls => (c :: l) :: ls
           | [] => [[c]]
           end
  end.

(** [s.replace(/\r\n?/g, "\n")]: every CR, with the LF that follows it
    if there is one, becomes one LF. *)
Fixpoint normalizeNewlines (s : str) : str :=
  match s with
  | [] => []
  | c :: t =>
      if c =? CR then
        match t with
        | d :: t' => if d =? LF then LF :: normalizeNewlines t'
                     else LF :: normalizeNewlines t
        | [] => [LF]
        end
      else c :: normalizeNewlines t
  end.

End JSString.

Import JSString.

(** ** Tokens *)

Inductive Part : Type :=
| Heading (level : nat) (text : str)
| Text (text : str)
| Code (lang : option str) (code : str).

(** ** trimEmptyJoin (main.tsx 309-315) *)

Module Normalize.

(** The part of an all-whitespace prefix [w] that follows its last LF,
    if it has one. *)
Fixpoint afterLastNl (w : str) : option str :=
  match w with
  | [] => None
  | c :: t =>
      match afterLastNl t with
      | Some r => Some r
      | None => if c =? LF then Some t else None
      end
  end.

(** [.replace(/^\s*\n+/, "")].  The expression is anchored and not
    global, so it applies once, at offset 0.  [\s*] is greedy and [\s]
    contains LF: backtracking gives up whitespace until the next unit
    is an LF, which is the last LF of the leading whitespace run; no LF
    follows it inside the run, so [\n+] takes that single unit.
    Everything up to and including it is removed.  Without an LF in
    the leading whitespace there is no match. *)
Definition stripLeading (s : str) : str :=
  match afterLastNl (takeWhile is_space s) with
  | Some w' => w' ++ dropWhile is_space s
  | None => s
  end.

(** What a pending run of [n] LFs becomes under [/\n{3,}/g -> "\n\n"]. *)
Definition emitNl (n : nat) : str :=
  if (n <? 3)%nat then repeat LF n else [LF; LF].

(** [.replace(/\n{3,}/g, "\n\n")]: a left-to-right scan; [n] counts
    the LFs of the run being read.  The quantifier is greedy, so a
    match always covers a maximal run. *)
Fixpoint collapseFrom (n : nat) (s : str) : str :=
  match s with
  | [] => emitNl n
  | c :: t =>
      if c =? LF then collapseFrom (S n) t
      else emitNl n ++ c :: collapseFrom 0 t
  end.

Definition collapseNl (s : str) : str := collapseFrom 0 s.

(** [.replace(/\n+\s*$/, "")], not global: the leftmost offset at
    which an LF starts a suffix made of whitespace only; the string is
    cut there. *)
Fixpoint stripTrailing (s : str) : str :=
  match s with
  | [] => []
  | c :: t =>
      if (c =? LF) && forallb is_space t then []
      else c :: stripTrailing t
  end.

Definition trimEmptyJoin (lines : list str) : str :=
  stripTrailing (collapseNl (stripLeading (joinNl lines))).

End Normalize.

Import Normalize.

(** ** tokenize (main.tsx 207-267) *)

Module Tokenizer.

(** [openFence = /^\s*```( .* )$/] (blanks added inside the group):
    capture 1 when the line matches.  A backtick is not whitespace, so
    the only split that can succeed is the one where [\s*] takes the
    whole leading whitespace run. *)
Definition openFence (line : str) : option str :=
  match dropWhile is_space line with
  | 96 :: 96 :: 96 :: rest =>
      if forallb is_dot rest then Some rest else None
  | _ => None
  end.

(** [/^\s*```\s*$/.test(line)] *)
Definition closeFence (line : str) : bool :=
  match dropWhile is_space line with
  | 96 :: 96 :: 96 :: rest => forallb is_space rest
  | _ => false
  end.

(** [headingRe = /^(#{1,6})\s+( .* )$/] (blanks added inside the last
    group): the pair ([m[1].length], [m[2]]).  With seven or more
    hashes no count between 1 and 6 is followed by whitespace.  [\s+]
    is greedy; giving whitespace back to the last group cannot repair
    a line terminator further right, so the first attempt decides. *)
Definition headingRe (line : str) : option (nat * str) :=
  let hashes := takeWhile (N.eqb HASH) line in
  let r := dropWhile (N.eqb HASH) line in
  let k := length hashes in
  if ((1 <=? k)%nat && (k <=? 6)%nat) then
    match r with
    | c :: _ =>
        if is_space c then
          let body := dropWhile is_space r in
          if forallb is_dot body then Some (k, body) else None
        else None
    | [] => None
    end
  else None.

Record State : Type := mkState {
  out : list Part;
  buf : list str;
  inCode : bool;
  codeLang : option str;
  codeBuf : list str
}.

Definition init : State :=
  {| out := []; buf := []; inCode := false; codeLang := None; codeBuf := [] |}.

(** [flushText], on the two variables it touches. *)
Definition flushOut (o : list Part) (b : list str) : list Part :=
  match b with
  | [] => o
  | _ :: _ =>
      let text := trimEmptyJoin b in
      match text with
      | [] => o
      | _ :: _ => o ++ [Text text]
      end
  end.

Definition flushText (st : State) : State :=
  {| out := flushOut (out st) (buf st); buf := [];
     inCode := inCode st; codeLang := codeLang st; codeBuf := codeBuf st |}.

(** [(capture ?? "").trim() || null] *)
Definition langOf (capture : str) : option str :=
  match trim capture with
  | [] => None
  | t => Some t
  end.

Definition openFenceTest (line : str) : bool :=
  match openFence line with Some _ => true | None => false end.

(** One iteration of [for (const raw of lines)]. *)
Definition step (st : State) (line : str) : State :=
  if negb (inCode st) && openFenceTest line then
    let st' := flushText st in
    {| out := out st'; buf := buf st'; inCode := true;
       codeLang := langOf (match openFence line with
                           | Some cap => cap
                           | None => []
                           end);
       codeBuf := [] |}
  else if inCode st then
    if closeFence line then
      {| out := out st ++ [Code (codeLang st) (joinNl (codeBuf st))];
         buf := buf st; inCode := false; codeLang := None; codeBuf := [] |}
    else
      {| out := out st; buf := buf st; inCode := inCode st;
         codeLang := codeLang st; codeBuf := codeBuf st ++ [line] |}
  else
    match headingRe line with
    | Some (level, body) =>
        let st' := flushText st in
        {| out := out st' ++ [Heading level (trim body)]; buf := buf st';
           inCode := inCode st'; codeLang := codeLang st';
           codeBuf := codeBuf st' |}
    | None =>
        {| out := out st; buf := buf st ++ [line]; inCode := inCode st;
           codeLang := codeLang st; codeBuf := codeBuf st |}
    end.

Definition run (lines : list str) (st : State) : State :=
  fold_left step lines st.

(** After the loop: the last flush, and the unterminated fence. *)
Definition finish (st : State) : list Part :=
  let st' := flushText st in
  if inCode st' then
    match codeBuf st' with
    | [] => out st'
    | _ :: _ => out st' ++ [Text (u "```" ++ LF :: joinNl (codeBuf st'))]
    end
  else out st'.

Definition tokenizeLines (lines : list str) : list Part :=
  finish (run lines init).

Definition tokenize (md : str) : list Part :=
  tokenizeLines (splitNl (normalizeNewlines md)).

End Tokenizer.

Import Tokenizer.

(** ** toSegments (main.tsx 270-289) *)

Module Segmenter.

(** [`seg_${segs.length}_${Math.random().toString(36).slice(2, 8)}`]:
    the index and the random suffix, kept apart. *)
Record SegId : Type := mkSegId { seg_index : nat; seg_suffix : str }.

Record Segment : Type := mkSegment {
  id : SegId;
  heading : option (nat * str);
  parts : list Part
}.

(** [segs] is the array; [cur] is the position in [segs] of the object
    the variable [cur] refers to ([None] for [null]).  The source
    pushes the object into [segs] and keeps mutating it through [cur]:
    both names reach the same cell. *)
Record State : Type := mkState {
  segs : list Segment;
  cur : option nat
}.

Definition init : State := {| segs := []; cur := None |}.

Definition addPart (p : Part) (s : Segment) : Segment :=
  {| id := id s; heading := heading s; parts := parts s ++ [p] |}.

Section WithRandom.

(** [rnd k]: the suffix drawn by the call of [startSeg] made when
    [segs.length] is [k]. *)
Variable rnd : nat -> str.

Definition startSeg (h : option (nat * str)) (st : State) : State :=
  let n := length (segs st) in
  let c := {| id := mkSegId n (rnd n);
              heading := h;
              parts := match h with
                       | Some (level, text) => [Heading level text]
                       | None => []
                       end |} in
  {| segs := segs st ++ [c]; cur := Some n |}.

(** [if (!cur) startSeg(null)] *)
Definition ensureCur (st : State) : State :=
  match cur st with
  | None => startSeg None st
  | Some _ => st
  end.

(** [cur!.parts.push(p)]; [cur] is never [null] here, [ensureCur]
    comes first. *)
Definition pushCur (p : Part) (st : State) : State :=
  match cur st with
  | Some i => {| segs := alter (addPart p) i (segs st); cur := cur st |}
  | None => st
  end.

Definition isBoundary (depth : nat) (p : Part) : bool :=
  match p with
  | Heading level _ => (level <=? depth)%nat
  | _ => false
  end.

(** One iteration of [for (const p of parts)]. *)
Definition step (depth : nat) (st : State) (p : Part) : State :=
  match p with
  | Heading level text =>
      if (level <=? depth)%nat then startSeg (Some (level, text)) st
      else pushCur p (ensureCur st)
  | _ => pushCur p (ensureCur st)
  end.

Definition run (depth : nat) (ps : list Part) (st : State) : State :=
  fold_left (step depth) ps st.

Definition nonEmpty (s : Segment) : bool := (0 <? length (parts s))%nat.

Definition toSegments (ps : list Part) (depth : nat) : list Segment :=
  List.filter nonEmpty (segs (run depth ps init)).

End WithRandom.

End Segmenter.

Import Segmenter.

(** ** segmentToMarkdown (main.tsx 292-307) *)

Module Serializer.

(** ["#".repeat(level) + " " + text] *)
Definition headingLine (level : nat) (text : str) : str :=
  repeat HASH level ++ SPACE :: text.

(** The entries one member pushes onto [lines]. *)
Definition partLines (p : Part) : list str :=
  match p with
  | Text t => [t]
  | Heading level text => [headingLine level text]
  | Code lang code =>
      [u "```" ++ match lang with
                  | Some l => l
                  | None => []
                  end;
       code;
       u "```"]
  end.

Definition segmentToMarkdown (seg : Segment) : str :=
  let lines :=
    match heading seg with
    | Some (level, text) => [headingLine level text]
    | None => []
    end ++ flat_map partLines (parts seg) in
  trim (joinNl lines).

End Serializer.

Import Serializer.

(** ** splitMarkdownByHeading (second variant, 262-287) *)

Module Splitter.

Inductive FenceChar : Type := FBacktick | FTilde.

Definition startsWith3 (c : N) (s : str) : bool :=
  match s with
  | a :: b :: d :: _ => (a =? c) && (b =? c) && (d =? c)
  | _ => false
  end.

(** [/^(#{1,6})\s+.+/]: the length of group 1 when the string matches.
    After the greedy [\s+], [.+] needs one unit that is not a line
    terminator: the unit after the whitespace run, or, giving
    whitespace back, a later unit of the run itself. *)
Definition headingPrefix (s : str) : option nat :=
  let k := length (takeWhile (N.eqb HASH) s) in
  let r := dropWhile (N.eqb HASH) s in
  if ((1 <=? k)%nat && (k <=? 6)%nat) then
    match takeWhile is_space r with
    | [] => None
    | _ :: w' =>
        match dropWhile is_space r with
        | _ :: _ => Some k
        | [] => if existsb is_dot w' then Some k else None
        end
    end
  else None.

Record Chunk : Type := mkChunk { chunk_id : nat; markdown : str }.

Record State : Type := mkState {
  chunks : list Chunk;
  buf : list str;
  inFence : bool;
  fenceChar : option FenceChar;
  next_id : nat
}.

Definition init : State :=
  {| chunks := []; buf := []; inFence := false; fenceChar := None;
     next_id := 1 |}.

(** [push] *)
Definition push (st : State) : State :=
  let text := trim (joinNl (buf st)) in
  match text with
  | [] => {| chunks := chunks st; buf := []; inFence := inFence st;
             fenceChar := fenceChar st; next_id := next_id st |}
  | _ :: _ => {| chunks := chunks st ++ [mkChunk (next_id st) text];
                 buf := []; inFence := inFence st;
                 fenceChar := fenceChar st; next_id := S (next_id st) |}
  end.

Definition pushLine (line : str) (st : State) : State :=
  {| chunks := chunks st; buf := buf st ++ [line]; inFence := inFence st;
     fenceChar := fenceChar st; next_id := next_id st |}.

Definition setFence (b : bool) (f : option FenceChar) (st : State) : State :=
  {| chunks := chunks st; buf := buf st; inFence := b; fenceChar := f;
     next_id := next_id st |}.

(** One iteration of the [for] loop. *)
Definition step (level : nat) (st : State) (line : str) : State :=
  let trimmed := trim line in
  if startsWith3 BACKTICK trimmed || startsWith3 TILDE trimmed then
    let opener := if startsWith3 BACKTICK trimmed then FBacktick else FTilde in
    let st1 :=
      if negb (inFence st) then setFence true (Some opener) st
      else
        match fenceChar st with
        | Some FBacktick =>
            if startsWith3 BACKTICK trimmed then setFence false None st else st
        | Some FTilde =>
            if startsWith3 TILDE trimmed then setFence false None st else st
        | None => st
        end in
    pushLine line st1
  else
    let boundary :=
      if negb (inFence st) then
        match headingPrefix trimmed with
        | Some h => (h <=? level)%nat
        | None => false
        end
      else false in
    if boundary then
      pushLine line (match buf st with [] => st | _ :: _ => push st end)
    else pushLine line st.

Definition splitMarkdownByHeading (src : str) (level : nat) : list Chunk :=
  let st := fold_left (step level) (splitNl (normalizeNewlines src)) init in
  chunks (match buf st with [] => st | _ :: _ => push st end).

End Splitter.

(** ** The copy tiers: smartCopy, copyWithExecCommand (second variant,
    202-232) and copyText (main.tsx 69-82) *)

Module Copy.

(** The transient [textarea]. *)
Record Elem : Type := mkElem {
  node : nat;
  value : str;
  readonly : bool;
  stylePosition : option str;
  styleTop : option str
}.

(** The part of the page the copy code touches: the children of
    [document.body] and the supply of fresh nodes. *)
Record Dom : Type := mkDom {
  body : list Elem;
  nextNode : nat
}.

(** What the platform does when asked; fixed for one call. *)
Inductive ExecBehaviour : Type :=
| ExecAbsent                 (* typeof document.execCommand !== 'function' *)
| ExecReturns (ok : bool)
| ExecThrows.

Record Env : Type := mkEnv {
  hasClipboard : bool;       (* navigator.clipboard is truthy *)
  isSecureContext : bool;    (* window.isSecureContext *)
  writeTextResolves : bool;  (* the promise of writeText resolves *)
  createElementThrows : bool;
  appendChildThrows : bool;
  selectThrows : bool;
  exec : ExecBehaviour
}.

(** Calls that leave the function, in the order they are made. *)
Inductive Call : Type :=
| CallWriteText (text : str)
| CallCreateElement
| CallAppendChild (n : nat)
| CallSelect (n : nat)
| CallExecCopy
| CallRemoveChild (n : nat)
| CallWarn
| CallManual (text : str).

Inductive Exn : Type :=
| NoAsyncClipboard | ClipboardRejected | TypeError | DomError.

Inductive Outcome (A : Type) : Type :=
| Ret (a : A)
| Throw (e : Exn).
Arguments Ret {A} a.
Arguments Throw {A} e.

(** State (the page), exceptions, and the log of outside calls. *)
Definition M (A : Type) : Type := Dom -> Outcome A * Dom * list Call.

Definition ret {A} (a : A) : M A := fun d => (Ret a, d, []).

Definition throw {A} (e : Exn) : M A := fun d => (Throw e, d, []).

Definition bind {A B} (m : M A) (k : A -> M B) : M B :=
  fun d =>
    match m d with
    | (Ret a, d1, l1) =>
        match k a d1 with
        | (r, d2, l2) => (r, d2, l1 ++ l2)
        end
    | (Throw e, d1, l1) => (Throw e, d1, l1)
    end.

(** [try { m } catch (e) { h e }]: the page keeps what [m] did to it. *)
Definition tryCatch {A} (m : M A) (h : Exn -> M A) : M A :=
  fun d =>
    match m d with
    | (Ret a, d1, l1) => (Ret a, d1, l1)
    | (Throw e, d1, l1) =>
        match h e d1 with
        | (r, d2, l2) => (r, d2, l1 ++ l2)
        end
    end.

Definition call (c : Call) : M unit := fun d => (Ret tt, d, [c]).

Notation "'do' x <- m ; k" := (bind m (fun x => k))
  (at level 10, x name, m at level 100, k at level 200).
Notation "'perform' m ; k" := (bind m (fun _ => k))
  (at level 10, m at level 100, k at level 200).

(** Primitive changes of the page. *)
Definition freshElem : M Elem :=
  fun d =>
    (Ret {| node := nextNode d; value := []; readonly := false;
            stylePosition := None; styleTop := None |},
     {| body := body d; nextNode := S (nextNode d) |}, []).

Definition attach (ta : Elem) : M unit :=
  fun d => (Ret tt, {| body := body d ++ [ta]; nextNode := nextNode d |}, []).

Definition detach (ta : Elem) : M unit :=
  fun d =>
    (Ret tt,
     {| body := List.filter (fun e => negb (Nat.eqb (node e) (node ta))) (body d);
        nextNode := nextNode d |}, []).

Section Platform.

Variable env : Env.

(** [await navigator.clipboard.writeText(text)] *)
Definition writeText (text : str) : M unit :=
  perform call (CallWriteText text);
  if writeTextResolves env then ret tt else throw ClipboardRejected.

(** [document.createElement('textarea')] *)
Definition createElement : M Elem :=
  perform call CallCreateElement;
  if createElementThrows env then throw DomError else freshElem.

(** [document.body.appendChild(ta)] *)
Definition appendChild (ta : Elem) : M unit :=
  perform call (CallAppendChild (node ta));
  if appendChildThrows env then throw DomError else attach ta.

(** [ta.select()] *)
Definition select (ta : Elem) : M unit :=
  perform call (CallSelect (node ta));
  if selectThrows env then throw DomError else ret tt.

(** [document.execCommand('copy')], called without looking first: an
    absent function is a [TypeError]. *)
Definition execCommandCopy : M bool :=
  match exec env with
  | ExecAbsent => throw TypeError
  | ExecReturns ok => perform call CallExecCopy; ret ok
  | ExecThrows => perform call CallExecCopy; throw DomError
  end.

Definition execIsFunction : bool :=
  match exec env with
  | ExecAbsent => false
  | _ => true
  end.

(** [document.body.removeChild(ta)] *)
Definition removeChild (ta : Elem) : M unit :=
  perform call (CallRemoveChild (node ta)); detach ta.

Definition consoleWarn : M unit := call CallWarn.

(** The caller's [requestManual(text)]: recorded; it is the caller's
    own state setter and returns. *)
Definition requestManual (text : str) : M unit := call (CallManual text).

Definition copyWithExecCommand (text : str) : M bool :=
  tryCatch
    (do ta <- createElement;
     let ta := {| node := node ta; value := text; readonly := readonly ta;
                  stylePosition := stylePosition ta; styleTop := styleTop ta |} in
     let ta := {| node := node ta; value := value ta; readonly := true;
                  stylePosition := stylePosition ta; styleTop := styleTop ta |} in
     let ta := {| node := node ta; value := value ta; readonly := readonly ta;
                  stylePosition := Some (u "fixed"); styleTop := styleTop ta |} in
     let ta := {| node := node ta; value := value ta; readonly := readonly ta;
                  stylePosition := stylePosition ta;
                  styleTop := Some (u "-1000px") |} in
     perform appendChild ta;
     perform select ta;
     do ok <- (if execIsFunction then execCommandCopy else ret false);
     perform removeChild ta;
     ret ok)
    (fun _ => perform consoleWarn; ret false).

Inductive CopyOutcome : Type := ViaClipboard | ViaExec | ViaManual.

Definition smartCopy (text : str) : M CopyOutcome :=
  tryCatch
    (if hasClipboard env && isSecureContext env then
       perform writeText text; ret ViaClipboard
     else throw NoAsyncClipboard)
    (fun _ =>
       do ok <- copyWithExecCommand text;
       if ok then ret ViaExec
       else perform requestManual text; ret ViaManual).

(** main.tsx: no capability test (a missing [navigator.clipboard] is a
    [TypeError] inside the [try]), and the fallback runs unprotected
    in the [catch] block. *)
Definition copyText (text : str) : M bool :=
  tryCatch
    (perform (if hasClipboard env then writeText text else throw TypeError);
     ret true)
    (fun _ =>
       do ta <- createElement;
       let ta := {| node := node ta; value := text; readonly := readonly ta;
                    stylePosition := stylePosition ta; styleTop := styleTop ta |} in
       perform appendChild ta;
       perform select ta;
       do ok <- execCommandCopy;
       perform removeChild ta;
       ret ok).

End Platform.

(** Is node [n] a child of [document.body]? *)
Definition attached (n : nat) (d : Dom) : bool :=
  existsb (fun e => Nat.eqb (node e) n) (body d).

Definition resultOf {A} (x : Outcome A * Dom * list Call) : Outcome A :=
  fst (fst x).
Definition domOf {A} (x : Outcome A * Dom * list Call) : Dom :=
  snd (fst x).
Definition callsOf {A} (x : Outcome A * Dom * list Call) : list Call :=
  snd x.

Definition isWriteText (c : Call) : bool :=
  match c with CallWriteText _ => true | _ => false end.
Definition isCreateElement (c : Call) : bool :=
  match c with CallCreateElement => true | _ => false end.
Definition isExecCopy (c : Call) : bool :=
  match c with CallExecCopy => true | _ => false end.
Definition isManual (c : Call) : bool :=
  match c with CallManual _ => true | _ => false end.

Definition countCalls (p : Call -> bool) (l : list Call) : nat :=
  length (List.filter p l).

(** No call satisfying [q] is made before the first call satisfying
    [p]. *)
Fixpoint precededBy (p q : Call -> bool) (l : list Call) : bool :=
  match l with
  | [] => true
  | c :: t => if q c then false else if p c then true else precededBy p q t
  end.

(** The native tier succeeds. *)
Definition nativeOk (env : Env) : bool :=
  hasClipboard env && isSecureContext env && writeTextResolves env.

(** The legacy tier succeeds: nothing throws and the command reports
    success. *)
Definition legacyOk (env : Env) : bool :=
  negb (createElementThrows env) && negb (appendChildThrows env) &&
  negb (selectThrows env) &&
  match exec env with ExecReturns true => true | _ => false end.

(** A platform on which every step works except that
    [document.execCommand('copy')] throws. *)
Definition envExecThrows : Env :=
  {| hasClipboard := false; isSecureContext := false;
     writeTextResolves := false; createElementThrows := false;
     appendChildThrows := false; selectThrows := false;
     exec := ExecThrows |}.

(** Node numbers of the page are below the next fresh one. *)
Definition domFresh (d : Dom) : Prop :=
  Forall (fun e => node e < nextNode d)%nat (body d).

End Copy.

Import Copy.

(** ** Predicates used in the statements *)

Local Close Scope N_scope.

(** [st] with [X] in front of the tokens it has produced. *)
Definition prependOut (X : list Part) (st : Tokenizer.State) : Tokenizer.State :=
  {| out := X ++ out st; buf := Tokenizer.buf st; inCode := inCode st;
     codeLang := codeLang st; codeBuf := codeBuf st |}.

(** No line of [body] closes a fence. *)
Definition noClose (body : list str) : bool :=
  forallb (fun l => negb (closeFence l)) body.

(** The capture of [openFence], or the empty string. *)
Definition fenceCapture (line : str) : str :=
  match openFence line with Some cap => cap | None => [] end.

(** The input of the unterminated-fence example: a heading, an
    opening fence with a tag, one body line, no closing fence. *)
Definition ex_unterminated : str :=
  joinNl [u "# T"; u "```js"; u "console.log(1)"].

(** The section the pipeline makes of the two lines [# A] and [x]. *)
Definition ex_section : Segment :=
  {| id := mkSegId 0 []; heading := Some (1, u "A");
     parts := [Heading 1 (u "A"); Text (u "x")] |}.

(** [s.trimEnd()], the right half of [trim]. *)
Definition trimEnd (s : str) : str := rev (dropWhile is_space (rev s)).

(** Some code unit of [s] is not whitespace. *)
Definition hasInk (s : str) : bool :=
  existsb (fun c => negb (is_space c)) s.

Definition notLF (c : N) : bool := negb (N.eqb c LF).

(** The three replacements of [trimEmptyJoin], on the joined text. *)
Definition normalizeText (s : str) : str :=
  stripTrailing (collapseNl (stripLeading s)).

(** What [join] puts behind the first line. *)
Definition tailSep (ls : list str) : str :=
  flat_map (fun l => LF :: l) ls.

(** No member of [body] is a heading of level at most [depth]. *)
Definition noBoundary (depth : nat) (body : list Part) : bool :=
  forallb (fun p => negb (isBoundary depth p)) body.

(** The variable [cur] refers to the last element of [segs] ([null]
    while [segs] is empty). *)
Definition curIsLast (st : Segmenter.State) : Prop :=
  cur st = match segs st with
           | [] => None
           | _ :: _ => Some (length (segs st) - 1)
           end.

(** A section with a heading attribute starts with that heading as a
    token; a headingless one holds no boundary heading. *)
Definition headingStored (depth : nat) (s : Segment) : Prop :=
  match heading s with
  | Some (level, text) =>
      exists rest, parts s = Heading level text :: rest
  | None => noBoundary depth (parts s) = true
  end.

Definition segGood (depth : nat) (s : Segment) : Prop :=
  headingStored depth s /\ nonEmpty s = true.

(** The random suffixes used in examples. *)
Definition r0 : nat -> str := fun _ => [].


(** ** Further predicates on sections *)

(** 1 when the first token opens a headingless section. *)
Definition leadingOpen (depth : nat) (ps : list Part) : nat :=
  match ps with
  | [] => 0
  | p :: _ => if isBoundary depth p then 0 else 1
  end.

(** The section carries a heading of level at most [depth]. *)
Definition headedBoundary (depth : nat) (s : Segment) : Prop :=
  exists l t, heading s = Some (l, t) /\ l <= depth.

(** The identifier the [n]-th call of [startSeg] makes. *)
Definition idAt (rnd : nat -> str) (n : nat) : SegId := mkSegId n (rnd n).


(** ** Further predicates on text *)

(** [ls.join(sep)] for any separator. *)
Fixpoint joinWith (sep : str) (ls : list str) : str :=
  match ls with
  | [] => []
  | [l] => l
  | l :: ls' => l ++ sep ++ joinWith sep ls'
  end.

Definition notCR (c : N) : bool := negb (N.eqb c CR).

(** A line as [split] yields it after the line endings were unified:
    no LF and no CR inside. *)
Definition noBreak (l : str) : bool := forallb notLF l && forallb notCR l.


(** ** Further predicates on tokens *)

(** A language tag as [tokenize] records it: absent, or not empty and
    without whitespace at either end. *)
Definition langOK (lang : option str) : Prop :=
  match lang with
  | None => True
  | Some l => l <> [] /\ trim l = l
  end.

(** The shape of the tokens [tokenize] can produce. *)
Definition tokenOK (p : Part) : Prop :=
  match p with
  | Heading level text => 1 <= level <= 6 /\ trim text = text
  | Text text => text <> []
  | Code lang _ => langOK lang
  end.

(** Outside a fence nothing of an earlier fence is left. *)
Definition idle (st : Tokenizer.State) : Prop :=
  inCode st = false -> codeLang st = None /\ codeBuf st = [].

(** A line that is neither an opening fence nor a heading. *)
Definition plainLine (l : str) : bool :=
  negb (openFenceTest l) &&
  match headingRe l with Some _ => false | None => true end.


(** ** Further predicates on normalized text *)

Definition startsLFLF (s : str) : bool :=
  match s with
  | a :: b :: _ => N.eqb a LF && N.eqb b LF
  | _ => false
  end.

(** No three line feeds in a row. *)
Fixpoint noTriple (s : str) : bool :=
  match s with
  | [] => true
  | c :: t => negb (N.eqb c LF && startsLFLF t) && noTriple t
  end.

(** The whitespace in front of the first other code unit holds no
    line feed. *)
Definition leadClean (s : str) : bool :=
  forallb notLF (takeWhile is_space s).


(** ** Sections used in round trips *)

(** The headingless section that holds one code token. *)
Definition codeSection (rnd : nat -> str) (lang : option str) (code : str)
    : Segment :=
  {| id := idAt rnd 0; heading := None; parts := [Code lang code] |}.

(** A language tag that can be written behind a fence and read back:
    absent, or not empty, trimmed, and without line terminators. *)
Definition langWritable (lang : option str) : Prop :=
  match lang with
  | None => True
  | Some l => l <> [] /\ trim l = l /\ forallb is_dot l = true
  end.


(** ** Predicates on the chunks of splitMarkdownByHeading *)

(** A chunk as [push] makes it: not empty, trimmed. *)
Definition chunkOK (c : Splitter.Chunk) : Prop :=
  Splitter.markdown c <> [] /\ trim (Splitter.markdown c) = Splitter.markdown c.

(** The code unit of a marker style. *)
Definition markerOf (f : Splitter.FenceChar) : N :=
  match f with
  | Splitter.FBacktick => BACKTICK
  | Splitter.FTilde => TILDE
  end.

(** The trimmed line starts with three markers of style [f]. *)
Definition fenceLineOf (f : Splitter.FenceChar) (line : str) : bool :=
  Splitter.startsWith3 (markerOf f) (trim line).

(** The trimmed line is a heading of level at most [level] for
    [splitMarkdownByHeading]. *)
Definition boundaryLine (level : nat) (line : str) : bool :=
  match Splitter.headingPrefix (trim line) with
  | Some h => (h <=? level)%nat
  | None => false
  end.

(** The chunks made so far are well formed and numbered from 1. *)
Definition chunksGood (st : Splitter.State) : Prop :=
  Forall chunkOK (Splitter.chunks st)
  /\ Splitter.next_id st = S (length (Splitter.chunks st))
  /\ List.map Splitter.chunk_id (Splitter.chunks st) =
       seq 1 (length (Splitter.chunks st)).

Definition splitterRun (level : nat) (ls : list str) (st : Splitter.State)
    : Splitter.State :=
  fold_left (Splitter.step level) ls st.


(** ** extractLang (second variant, 256-260) *)

(** The class [[a-zA-Z0-9#.+-]]. *)
Definition isLangChar (c : N) : bool :=
  ((97 <=? c) && (c <=? 122))%N || ((65 <=? c) && (c <=? 90))%N ||
  ((48 <=? c) && (c <=? 57))%N ||
  (c =? 35)%N || (c =? 46)%N || (c =? 43)%N || (c =? 45)%N.

Fixpoint isPrefixOf (p s : str) : bool :=
  match p, s with
  | [], _ => true
  | a :: p', b :: s' => (a =? b)%N && isPrefixOf p' s'
  | _ :: _, [] => false
  end.

(** [s.match(/language-([a-zA-Z0-9#.+-]+)/)?.[1]]: the search tries
    the offsets from the left; at an offset the literal must be there
    and at least one unit of the class must follow; the group is
    greedy and nothing follows it in the expression, so it is the
    whole run of class units. *)
Fixpoint matchLanguage (s : str) : option str :=
  match s with
  | [] => None
  | _ :: t =>
      match (if isPrefixOf (u "language-") s
             then takeWhile isLangChar (drop 9 s) else []) with
      | [] => matchLanguage t
      | run => Some run
      end
  end.

(** [className] is [None] for [undefined]; the empty string is falsy
    too. *)
Definition extractLang (className : option str) : option str :=
  match className with
  | None => None
  | Some [] => None
  | Some s => matchLanguage s
  end.

(** ** Further predicates on the copy tiers *)

(** The outcome of the first tier that works. *)
Definition firstWorkingTier (env : Env) : CopyOutcome :=
  if nativeOk env then ViaClipboard
  else if legacyOk env then ViaExec else ViaManual.

(** Calls that hand a text to the outside hand over [text]. *)
Definition carries (text : str) (c : Call) : Prop :=
  match c with
  | CallWriteText t => t = text
  | CallManual t => t = text
  | _ => True
  end.

(** What [copyText] of main.tsx ends with. *)
Definition copyTextResult (env : Env) : Outcome bool :=
  if hasClipboard env && writeTextResolves env then Ret true
  else if createElementThrows env || appendChildThrows env ||
          selectThrows env then Throw DomError
  else match exec env with
       | ExecAbsent => Throw TypeError
       | ExecReturns ok => Ret ok
       | ExecThrows => Throw DomError
       end.


(** ** Further examples of sections and inputs *)

(** The headingless section that holds one text token. *)
Definition textSection (rnd : nat -> str) (text : str) : Segment :=
  {| id := idAt rnd 0; heading := None; parts := [Text text] |}.

(** A line break unit: LF or CR. *)
Definition isBreak (c : N) : bool := N.eqb c LF || N.eqb c CR.

Definition isLF (c : N) : bool := N.eqb c LF.

(** * The scanners on sample lines *)

Example headingRe_level_and_rest :
  headingRe (u "##   Title  ") = Some (2, u "Title  ").
Proof. reflexivity. Qed.

Example headingRe_needs_space : headingRe (u "#Title") = None.
Proof. reflexivity. Qed.

Example headingRe_seven_hashes : headingRe (u "####### x") = None.
Proof. reflexivity. Qed.

Example headingRe_empty_text : headingRe (u "# ") = Some (1, []).
Proof. reflexivity. Qed.

Example openFence_indented_tag :
  openFence (u "  ```js ") = Some (u "js ").
Proof. reflexivity. Qed.

Example openFence_line_separator :
  openFence (u "```js" ++ [8232%N]) = None.
Proof. reflexivity. Qed.

Example closeFence_trailing_space : closeFence (u " ```  ") = true.
Proof. reflexivity. Qed.

Example closeFence_four_backticks : closeFence (u "````") = false.
Proof. reflexivity. Qed.

Example normalizeNewlines_sample :
  normalizeNewlines [97; 13; 10; 98; 13; 99]%N = [97; 10; 98; 10; 99]%N.
Proof. reflexivity. Qed.

Example splitNl_sample :
  splitNl [97; 10; 10; 98; 10]%N = [[97]; []; [98]; []]%N.
Proof. reflexivity. Qed.

Example stripLeading_sample :
  stripLeading (joinNl [u "  "; u " "; u "  x"]) = u "  x".
Proof. reflexivity. Qed.

Example stripTrailing_sample :
  stripTrailing (joinNl [u "a"; u ""; u "b  "; u " "; u ""]) =
  joinNl [u "a"; u ""; u "b  "].
Proof. reflexivity. Qed.

Example trimEmptyJoin_blank_only : trimEmptyJoin [u ""; u " "] = u " ".
Proof. reflexivity. Qed.

(** The end-to-end example: three sections at depth 2, one at depth 1. *)
Example pipeline_depth_2 :
  toSegments r0
    (tokenize (joinNl [u "# A"; u "x"; u "## B"; u "```js"; u "1"; u "```";
                       u "## C"; u "y"])) 2 =
  [{| id := mkSegId 0 []; heading := Some (1, u "A");
      parts := [Heading 1 (u "A"); Text (u "x")] |};
   {| id := mkSegId 1 []; heading := Some (2, u "B");
      parts := [Heading 2 (u "B"); Code (Some (u "js")) (u "1")] |};
   {| id := mkSegId 2 []; heading := Some (2, u "C");
      parts := [Heading 2 (u "C"); Text (u "y")] |}].
Proof. reflexivity. Qed.

Example pipeline_depth_1 :
  toSegments r0
    (tokenize (joinNl [u "# A"; u "x"; u "## B"; u "```js"; u "1"; u "```";
                       u "## C"; u "y"])) 1 =
  [{| id := mkSegId 0 []; heading := Some (1, u "A");
      parts := [Heading 1 (u "A"); Text (u "x"); Heading 2 (u "B");
                Code (Some (u "js")) (u "1"); Heading 2 (u "C");
                Text (u "y")] |}].
Proof. reflexivity. Qed.

(** * Segmenter *)

Section SegmenterFacts.

Variable rnd : nat -> str.
Variable depth : nat.

Lemma startSeg_curIsLast h st : curIsLast (startSeg rnd h st).
Proof.
  unfold curIsLast, startSeg; simpl.
  destruct (segs st) as [|s ss]; simpl; [reflexivity|].
  rewrite length_app; simpl. f_equal. lia.
Qed.

Lemma pushCur_last p st ss s :
  segs st = ss ++ [s] -> curIsLast st ->
  pushCur p st = {| segs := ss ++ [addPart p s]; cur := Some (length ss) |}.
Proof.
  intros Hs Hc. unfold curIsLast in Hc. rewrite Hs in Hc.
  assert (Hc' : cur st = Some (length ss)).
  { rewrite Hc. destruct ss; simpl; [reflexivity|].
    rewrite length_app; simpl. f_equal. lia. }
  unfold pushCur. rewrite Hc', Hs. f_equal.
  replace (length ss) with (length ss + 0) by lia.
  rewrite alter_app_r. reflexivity.
Qed.

Lemma pushCur_curIsLast p st : curIsLast st -> curIsLast (pushCur p st).
Proof.
  intros Hc. unfold pushCur. destruct (cur st) as [i|] eqn:E; [|exact Hc].
  unfold curIsLast in *; simpl. rewrite length_alter.
  rewrite E in Hc.
  destruct (segs st) as [|s ss] eqn:Es; [discriminate|].
  destruct (alter (addPart p) i (s :: ss)) eqn:Ea.
  - apply (f_equal length) in Ea. rewrite length_alter in Ea. discriminate.
  - exact Hc.
Qed.

Lemma ensureCur_curIsLast st : curIsLast st -> curIsLast (ensureCur rnd st).
Proof.
  intros Hc. unfold ensureCur. destruct (cur st); [exact Hc|].
  apply startSeg_curIsLast.
Qed.

Lemma step_curIsLast st p :
  curIsLast st -> curIsLast (Segmenter.step rnd depth st p).
Proof.
  intros Hc. unfold Segmenter.step.
  destruct p as [l t|t|lg c];
    try (apply pushCur_curIsLast, ensureCur_curIsLast, Hc).
  destruct (l <=? depth)%nat.
  - apply startSeg_curIsLast.
  - apply pushCur_curIsLast, ensureCur_curIsLast, Hc.
Qed.

Lemma run_curIsLast ps st :
  curIsLast st -> curIsLast (Segmenter.run rnd depth ps st).
Proof.
  revert st. induction ps as [|p ps IH]; intros st Hc; simpl; [exact Hc|].
  apply IH, step_curIsLast, Hc.
Qed.

Lemma init_curIsLast : curIsLast Segmenter.init.
Proof. reflexivity. Qed.

Lemma run_app ps qs st :
  Segmenter.run rnd depth (ps ++ qs) st =
  Segmenter.run rnd depth qs (Segmenter.run rnd depth ps st).
Proof. apply fold_left_app. Qed.

Lemma run_cons p ps st :
  Segmenter.run rnd depth (p :: ps) st =
  Segmenter.run rnd depth ps (Segmenter.step rnd depth st p).
Proof. reflexivity. Qed.

(** A token that is not a boundary goes to the open section. *)
Lemma step_member st p ss s :
  isBoundary depth p = false ->
  segs st = ss ++ [s] -> curIsLast st ->
  Segmenter.step rnd depth st p =
    {| segs := ss ++ [addPart p s]; cur := Some (length ss) |}.
Proof.
  intros Hb Hs Hc.
  assert (He : ensureCur rnd st = st).
  { unfold ensureCur. unfold curIsLast in Hc. rewrite Hs in Hc.
    rewrite Hc. destruct ss; reflexivity. }
  unfold Segmenter.step.
  destruct p as [l t|t|lg c]; simpl in Hb;
    try (rewrite He; apply pushCur_last; assumption).
  rewrite Hb, He. apply pushCur_last; assumption.
Qed.

Lemma run_members body : forall st ss s,
  noBoundary depth body = true ->
  segs st = ss ++ [s] -> curIsLast st ->
  segs (Segmenter.run rnd depth body st) =
    ss ++ [{| id := id s; heading := heading s; parts := parts s ++ body |}].
Proof.
  induction body as [|p body IH]; intros st ss s Hn Hs Hc; simpl.
  - rewrite app_nil_r, Hs. destruct s; reflexivity.
  - simpl in Hn. apply andb_prop in Hn as [Hp Hn].
    apply negb_true_iff in Hp.
    rewrite (step_member st p ss s Hp Hs Hc).
    erewrite IH; [| exact Hn | reflexivity |].
    + simpl. rewrite <- app_assoc. reflexivity.
    + unfold curIsLast; simpl. rewrite length_app; simpl.
      destruct ss; simpl; f_equal; lia.
Qed.

Lemma step_first st p :
  isBoundary depth p = false -> segs st = [] -> curIsLast st ->
  Segmenter.step rnd depth st p =
    {| segs := [{| id := mkSegId 0 (rnd 0); heading := None; parts := [p] |}];
       cur := Some 0 |}.
Proof.
  intros Hb Hs Hc. unfold curIsLast in Hc. rewrite Hs in Hc.
  assert (He : pushCur p (ensureCur rnd st) =
    {| segs := [{| id := mkSegId 0 (rnd 0); heading := None; parts := [p] |}];
       cur := Some 0 |}).
  { unfold ensureCur, pushCur, startSeg. rewrite Hc, Hs. reflexivity. }
  unfold Segmenter.step.
  destruct p as [l t|t|lg c]; simpl in Hb; try exact He.
  rewrite Hb. exact He.
Qed.

Lemma step_boundary st l t :
  (l <=? depth) = true ->
  Segmenter.step rnd depth st (Heading l t) =
    {| segs := segs st ++
         [{| id := mkSegId (length (segs st)) (rnd (length (segs st)));
             heading := Some (l, t); parts := [Heading l t] |}];
       cur := Some (length (segs st)) |}.
Proof. intros H. unfold Segmenter.step. rewrite H. reflexivity. Qed.

Lemma snoc_cases {A} (l : list A) : l = [] \/ exists ss s, l = ss ++ [s].
Proof.
  induction l as [|x l IH]; [left; reflexivity|right].
  destruct IH as [->|(ss & s & ->)].
  - exists [], x. reflexivity.
  - exists (x :: ss), s. reflexivity.
Qed.

Lemma addPart_good p s :
  isBoundary depth p = false -> headingStored depth s -> segGood depth (addPart p s).
Proof.
  intros Hb Hh. split.
  - unfold headingStored in *. simpl.
    destruct (heading s) as [[l t]|].
    + destruct Hh as [rest ->]. exists (rest ++ [p]). reflexivity.
    + unfold noBoundary in *. rewrite forallb_app, Hh. simpl.
      rewrite Hb. reflexivity.
  - unfold nonEmpty. simpl. rewrite length_app. simpl.
    apply Nat.ltb_lt. lia.
Qed.

Lemma step_good st p :
  curIsLast st -> Forall (segGood depth) (segs st) ->
  Forall (segGood depth) (segs (Segmenter.step rnd depth st p)).
Proof.
  intros Hc Hg. destruct (isBoundary depth p) eqn:Hb.
  - destruct p as [l t|t|lg c]; try discriminate. simpl in Hb.
    rewrite (step_boundary st l t Hb). simpl.
    apply Forall_app. split; [exact Hg|].
    constructor; [|constructor].
    split; [exists []; reflexivity | reflexivity].
  - destruct (snoc_cases (segs st)) as [Hs|(ss & s & Hs)].
    + rewrite (step_first st p Hb Hs Hc). simpl.
      constructor; [|constructor]. split; [|reflexivity].
      unfold headingStored, noBoundary. simpl. rewrite Hb. reflexivity.
    + rewrite (step_member st p ss s Hb Hs Hc). simpl.
      rewrite Hs in Hg. apply Forall_app in Hg as [Hg1 Hg2].
      apply Forall_app. split; [exact Hg1|].
      constructor; [|constructor].
      apply addPart_good; [exact Hb|]. inversion Hg2 as [|? ? [Hh _] _]; exact Hh.
Qed.

Lemma run_good ps : forall st,
  curIsLast st -> Forall (segGood depth) (segs st) ->
  Forall (segGood depth) (segs (Segmenter.run rnd depth ps st)).
Proof.
  induction ps as [|p ps IH]; intros st Hc Hg; simpl; [exact Hg|].
  apply IH; [apply step_curIsLast, Hc | apply step_good; assumption].
Qed.

Lemma filter_keeps_all {A} (f : A -> bool) (l : list A) :
  Forall (fun x => f x = true) l -> List.filter f l = l.
Proof.
  induction 1 as [|x l Hx _ IH]; simpl; [reflexivity|].
  rewrite Hx, IH. reflexivity.
Qed.

(** The closing [filter] of [toSegments] removes nothing. *)
Lemma toSegments_unfiltered ps :
  toSegments rnd ps depth = segs (Segmenter.run rnd depth ps Segmenter.init).
Proof.
  unfold toSegments. apply filter_keeps_all.
  eapply Forall_impl; [apply run_good|].
  - apply init_curIsLast.
  - constructor.
  - intros s [_ H]. exact H.
Qed.

End SegmenterFacts.

(** C8. A heading of level at most [depth] starts a new section that
    carries it as heading attribute (and as first member), and every
    token after it up to the next such heading, deeper headings
    included, is appended to that section in order; tokens in front of
    the first boundary heading form one headingless section. *)
Theorem segmenter_boundary_rule
    (rnd : nat -> str) (depth : nat) (ps : list Part)
    (l : nat) (t : str) (body : list Part) :
  l <= depth ->
  noBoundary depth body = true ->
  toSegments rnd (ps ++ Heading l t :: body) depth =
    toSegments rnd ps depth ++
      [{| id := mkSegId (length (toSegments rnd ps depth))
                        (rnd (length (toSegments rnd ps depth)));
          heading := Some (l, t);
          parts := Heading l t :: body |}]
  /\ toSegments rnd body depth =
       match body with
       | [] => []
       | _ :: _ => [{| id := mkSegId 0 (rnd 0); heading := None; parts := body |}]
       end.
Proof.
  intros Hl Hn. split.
  - rewrite !toSegments_unfiltered, run_app, run_cons.
    set (st := Segmenter.run rnd depth ps Segmenter.init).
    apply Nat.leb_le in Hl. rewrite (step_boundary rnd depth st l t Hl).
    rewrite (run_members rnd depth body _ (segs st)
               {| id := mkSegId (length (segs st)) (rnd (length (segs st)));
                  heading := Some (l, t); parts := [Heading l t] |}
               Hn); [reflexivity | reflexivity |].
    unfold curIsLast; simpl. rewrite length_app; simpl.
    destruct (segs st); simpl; f_equal; lia.
  - rewrite toSegments_unfiltered. destruct body as [|p body]; [reflexivity|].
    simpl in Hn. apply andb_prop in Hn as [Hp Hn].
    apply negb_true_iff in Hp. rewrite run_cons.
    rewrite (step_first rnd depth Segmenter.init p Hp eq_refl init_curIsLast).
    rewrite (run_members rnd depth body _ []
               {| id := mkSegId 0 (rnd 0); heading := None; parts := [p] |}
               Hn); reflexivity.
Qed.

Lemma segmenter_boundary_rule_witness :
  toSegments r0
    ([Text (u "p")] ++ Heading 2 (u "B") :: [Heading 3 (u "c"); Text (u "x")])
    2 =
    toSegments r0 [Text (u "p")] 2 ++
      [{| id := mkSegId 1 []; heading := Some (2, u "B");
          parts := [Heading 2 (u "B"); Heading 3 (u "c"); Text (u "x")] |}]
  /\ toSegments r0 [Heading 3 (u "c"); Text (u "x")] 2 =
       [{| id := mkSegId 0 []; heading := None;
           parts := [Heading 3 (u "c"); Text (u "x")] |}].
Proof.
  apply (segmenter_boundary_rule r0 2 [Text (u "p")] 2 (u "B")
           [Heading 3 (u "c"); Text (u "x")]).
  - lia.
  - reflexivity.
Defined.

(** C9, as the code has it.  No section of the output has zero
    members, and the closing filter removes nothing: a section with a
    heading holds that heading as a member from the start, and a
    headingless section is opened only to receive a token.  The output
    is the list of sections in the order the loop created them. *)
Theorem segmenter_no_empty_sections
    (rnd : nat -> str) (ps : list Part) (depth : nat) :
  Forall (fun s => parts s <> []) (toSegments rnd ps depth)
  /\ toSegments rnd ps depth =
       segs (Segmenter.run rnd depth ps Segmenter.init).
Proof.
  split; [|apply toSegments_unfiltered].
  rewrite toSegments_unfiltered.
  eapply Forall_impl;
    [apply run_good; [apply init_curIsLast | constructor]|].
  intros s [_ H] E. unfold nonEmpty in H. rewrite E in H. discriminate.
Qed.

(** C9, as the claim has it, fails: a boundary heading immediately
    followed by another boundary heading keeps its own one-member
    section. *)
Lemma dangling_heading_section_is_kept :
  toSegments r0 [Heading 1 (u "A"); Heading 1 (u "B"); Text (u "x")] 1 =
    [{| id := mkSegId 0 []; heading := Some (1, u "A");
        parts := [Heading 1 (u "A")] |};
     {| id := mkSegId 1 []; heading := Some (1, u "B");
        parts := [Heading 1 (u "B"); Text (u "x")] |}].
Proof. reflexivity. Qed.

(** C10. In every section of the output that has a heading attribute
    the first member is the Heading token with the same level and
    text; a section without heading attribute holds no heading of
    level at most [depth]. *)
Theorem segmenter_heading_stored
    (rnd : nat -> str) (ps : list Part) (depth : nat) :
  Forall (headingStored depth) (toSegments rnd ps depth).
Proof.
  rewrite toSegments_unfiltered.
  eapply Forall_impl;
    [apply run_good; [apply init_curIsLast | constructor]|].
  intros s [H _]. exact H.
Qed.

(** * Copy tiers *)

Lemma copyWithExecCommand_result env text d :
  resultOf (copyWithExecCommand env text d) = Ret (legacyOk env).
Proof.
  destruct env as [hc sc wr ct at_ st [|[|]|]];
    destruct ct, at_, st; reflexivity.
Qed.

Lemma existsb_snoc_node (l : list Elem) (e : Elem) :
  existsb (fun x => Nat.eqb (node x) (node e)) (l ++ [e]) = true.
Proof.
  rewrite existsb_app. simpl. rewrite Nat.eqb_refl.
  rewrite orb_true_r. reflexivity.
Qed.

Lemma filter_fresh_node (l : list Elem) (n : nat) :
  Forall (fun e => node e < n) l ->
  List.filter (fun e => negb (Nat.eqb (node e) n)) l = l.
Proof.
  intros H. apply filter_keeps_all.
  eapply Forall_impl; [exact H|]. intros e He. simpl in He.
  apply negb_true_iff, Nat.eqb_neq. lia.
Qed.

(** When nothing throws between [appendChild] and [removeChild], the
    children of [document.body] are what they were. *)
Lemma copyWithExecCommand_restores env text d :
  domFresh d ->
  selectThrows env = false -> exec env <> ExecThrows ->
  body (domOf (copyWithExecCommand env text d)) = body d.
Proof.
  intros Hf Hs He.
  destruct env as [hc sc wr ct at_ st ex]; simpl in Hs, He; subst st.
  destruct ex as [|ok|]; [| |contradiction];
    destruct ct, at_; try reflexivity;
    cbv [copyWithExecCommand tryCatch bind createElement appendChild select
         execIsFunction execCommandCopy removeChild call ret throw freshElem
         attach detach domOf fst snd createElementThrows appendChildThrows
         selectThrows exec body nextNode node];
    rewrite List.filter_app; simpl; rewrite Nat.eqb_refl; simpl;
    rewrite app_nil_r; apply filter_fresh_node; exact Hf.
Qed.

(** C3 at the failing platform.  [document.execCommand('copy')] throws
    after the textarea has been appended: [copyWithExecCommand]
    catches, warns and returns [false] without calling [removeChild],
    and [copyText] lets the exception go; either way the textarea
    created by the call is still a child of [document.body]. *)
Theorem legacy_tier_leaks_element_on_throw (text : str) (d : Dom) :
  resultOf (copyWithExecCommand envExecThrows text d) = Ret false
  /\ attached (nextNode d)
       (domOf (copyWithExecCommand envExecThrows text d)) = true
  /\ countCalls (fun c => match c with CallRemoveChild _ => true | _ => false end)
       (callsOf (copyWithExecCommand envExecThrows text d)) = 0
  /\ resultOf (copyText envExecThrows text d) = Throw DomError
  /\ attached (nextNode d) (domOf (copyText envExecThrows text d)) = true.
Proof.
  repeat split; try reflexivity.
  - cbv [copyWithExecCommand envExecThrows tryCatch bind createElement
         appendChild select execIsFunction execCommandCopy removeChild call
         ret throw freshElem attach detach domOf fst snd createElementThrows
         appendChildThrows selectThrows exec consoleWarn attached].
    simpl body.
    apply (existsb_snoc_node (body d)
             {| node := nextNode d; value := text; readonly := true;
                stylePosition := Some (u "fixed");
                styleTop := Some (u "-1000px") |}).
  - cbv [copyText envExecThrows tryCatch bind createElement
         appendChild select execIsFunction execCommandCopy removeChild call
         ret throw freshElem attach detach domOf fst snd createElementThrows
         appendChildThrows selectThrows exec consoleWarn attached
         hasClipboard].
    simpl body.
    apply (existsb_snoc_node (body d)
             {| node := nextNode d; value := text; readonly := false;
                stylePosition := None; styleTop := None |}).
Qed.

Lemma smartCopy_native_ok env text d :
  nativeOk env = true ->
  smartCopy env text d = (Ret ViaClipboard, d, [CallWriteText text]).
Proof.
  destruct env as [[|] [|] [|] ct at_ st ex]; try discriminate. reflexivity.
Qed.

(** C4.  When the native write fails, [smartCopy] enters the legacy
    tier before any call of the manual callback; when the legacy tier
    fails too, the callback is called exactly once, as the last call,
    and the outcome is [ViaManual]; on every platform [writeText], the
    legacy tier, the copy command and the callback are each entered at
    most once in a call. *)
Theorem copy_tier_order (env : Env) (text : str) (d : Dom) :
  let x := smartCopy env text d in
  (nativeOk env = true ->
     resultOf x = Ret ViaClipboard /\ callsOf x = [CallWriteText text])
  /\ (nativeOk env = false ->
        precededBy isCreateElement isManual (callsOf x) = true
        /\ countCalls isCreateElement (callsOf x) = 1)
  /\ (nativeOk env = false -> legacyOk env = true ->
        resultOf x = Ret ViaExec /\ countCalls isManual (callsOf x) = 0)
  /\ (nativeOk env = false -> legacyOk env = false ->
        resultOf x = Ret ViaManual /\ countCalls isManual (callsOf x) = 1
        /\ last (callsOf x) = Some (CallManual text))
  /\ countCalls isWriteText (callsOf x) <= 1
  /\ countCalls isCreateElement (callsOf x) <= 1
  /\ countCalls isExecCopy (callsOf x) <= 1
  /\ countCalls isManual (callsOf x) <= 1.
Proof.
  intros x. subst x.
  destruct env as [[|] [|] [|] [|] [|] [|] [|[|]|]];
    cbv; repeat split; (discriminate || lia || reflexivity || idtac).
Qed.

Lemma copy_tier_order_witness :
  let x := smartCopy envExecThrows (u "hi") {| body := []; nextNode := 0 |} in
  precededBy isCreateElement isManual (callsOf x) = true
  /\ resultOf x = Ret ViaManual
  /\ countCalls isManual (callsOf x) = 1.
Proof.
  destruct (copy_tier_order envExecThrows (u "hi") {| body := []; nextNode := 0 |})
    as (_ & H2 & _ & H4 & _).
  split; [apply H2; reflexivity|].
  split; apply H4; reflexivity.
Defined.

(** * Tokenizer *)

Section TokenizerFacts.

Lemma tok_run_app ls ms st :
  Tokenizer.run (ls ++ ms) st = Tokenizer.run ms (Tokenizer.run ls st).
Proof. apply fold_left_app. Qed.

Lemma tok_run_cons l ls st :
  Tokenizer.run (l :: ls) st = Tokenizer.run ls (Tokenizer.step st l).
Proof. reflexivity. Qed.

Lemma flushOut_prepend X o b : flushOut (X ++ o) b = X ++ flushOut o b.
Proof.
  unfold flushOut. destruct b; [reflexivity|].
  destruct (trimEmptyJoin _); [reflexivity|]. apply eq_sym, app_assoc.
Qed.

Lemma step_prepend X st line :
  Tokenizer.step (prependOut X st) line = prependOut X (Tokenizer.step st line).
Proof.
  unfold Tokenizer.step, prependOut, flushText; simpl.
  destruct (negb (inCode st) && openFenceTest line).
  - simpl. rewrite flushOut_prepend. reflexivity.
  - destruct (inCode st).
    + destruct (closeFence line); simpl; [|reflexivity].
      rewrite <- app_assoc. reflexivity.
    + destruct (headingRe line) as [[level body]|]; simpl; [|reflexivity].
      rewrite flushOut_prepend, <- app_assoc. reflexivity.
Qed.

Lemma run_prepend X ls : forall st,
  Tokenizer.run ls (prependOut X st) = prependOut X (Tokenizer.run ls st).
Proof.
  induction ls as [|l ls IH]; intros st; [reflexivity|].
  rewrite !tok_run_cons, step_prepend. apply IH.
Qed.

Lemma finish_prepend X st : finish (prependOut X st) = X ++ finish st.
Proof.
  unfold finish, prependOut, flushText; simpl.
  rewrite flushOut_prepend.
  destruct (inCode st); [|reflexivity].
  destruct (codeBuf st); [reflexivity|]. apply eq_sym, app_assoc.
Qed.

(** Tokens already produced stay in front of what an idle tokenizer
    produces from the remaining lines. *)
Lemma tokens_after X ls :
  finish (Tokenizer.run ls {| out := X; buf := []; inCode := false;
                              codeLang := None; codeBuf := [] |}) =
  X ++ tokenizeLines ls.
Proof.
  replace {| out := X; buf := []; inCode := false; codeLang := None;
             codeBuf := [] |} with (prependOut X Tokenizer.init).
  - rewrite run_prepend, finish_prepend. reflexivity.
  - unfold prependOut. simpl. rewrite app_nil_r. reflexivity.
Qed.

(** Outside a fence the tokens of a finished prefix are the flushed
    output. *)
Lemma finish_outside st :
  inCode st = false -> finish st = flushOut (out st) (Tokenizer.buf st).
Proof. intros H. unfold finish, flushText; simpl. rewrite H. reflexivity. Qed.

Lemma step_open st line :
  inCode st = false -> openFenceTest line = true ->
  Tokenizer.step st line =
    {| out := flushOut (out st) (Tokenizer.buf st); buf := []; inCode := true;
       codeLang := langOf (fenceCapture line); codeBuf := [] |}.
Proof.
  intros Hi Ho. unfold Tokenizer.step. rewrite Hi, Ho. reflexivity.
Qed.

Lemma step_body st line :
  inCode st = true -> closeFence line = false ->
  Tokenizer.step st line =
    {| out := out st; buf := Tokenizer.buf st; inCode := true;
       codeLang := codeLang st; codeBuf := codeBuf st ++ [line] |}.
Proof.
  intros Hi Hc. unfold Tokenizer.step. rewrite Hi, Hc. reflexivity.
Qed.

Lemma step_close st line :
  inCode st = true -> closeFence line = true ->
  Tokenizer.step st line =
    {| out := out st ++ [Code (codeLang st) (joinNl (codeBuf st))];
       buf := Tokenizer.buf st; inCode := false; codeLang := None;
       codeBuf := [] |}.
Proof.
  intros Hi Hc. unfold Tokenizer.step. rewrite Hi, Hc. reflexivity.
Qed.

Lemma run_body body : forall st,
  inCode st = true -> noClose body = true ->
  Tokenizer.run body st =
    {| out := out st; buf := Tokenizer.buf st; inCode := true;
       codeLang := codeLang st; codeBuf := codeBuf st ++ body |}.
Proof.
  induction body as [|l body IH]; intros st Hi Hn.
  - simpl. rewrite app_nil_r. destruct st; simpl in *. subst. reflexivity.
  - simpl in Hn. apply andb_prop in Hn as [Hl Hn].
    apply negb_true_iff in Hl.
    rewrite tok_run_cons, (step_body st l Hi Hl), IH; [|reflexivity|exact Hn].
    simpl. rewrite <- app_assoc. reflexivity.
Qed.

(** A line that starts with a hash never closes a fence. *)
Lemma hash_line_not_close rest : closeFence (HASH :: rest) = false.
Proof. reflexivity. Qed.

End TokenizerFacts.

(** C7, as the code has it.  For [tokenize] a fence is a backtick
    fence.  A fence opened outside a fence by a line of optional
    whitespace and three or more backticks, and closed by the first
    later line of optional whitespace, exactly three backticks and
    optional whitespace, yields one Code token whose body is the lines
    in between, joined verbatim; the other tokens are those of the
    lines in front and of the lines behind.  A line that starts with a
    hash is never a closing line, so between the fence lines it is
    body text and gives no Heading.  The tokenizer takes no depth. *)
Theorem fence_opacity
    (md : str) (pre : list str) (open : str) (body : list str)
    (close : str) (post : list str) :
  splitNl (normalizeNewlines md) = pre ++ open :: body ++ close :: post ->
  inCode (Tokenizer.run pre Tokenizer.init) = false ->
  openFenceTest open = true ->
  noClose body = true ->
  closeFence close = true ->
  tokenize md =
    tokenizeLines pre ++
    Code (langOf (fenceCapture open)) (joinNl body) :: tokenizeLines post
  /\ forall rest, closeFence (HASH :: rest) = false.
Proof.
  intros Hmd Hpre Hopen Hbody Hclose. split; [|apply hash_line_not_close].
  unfold tokenize. rewrite Hmd. unfold tokenizeLines.
  rewrite tok_run_app, tok_run_cons, tok_run_app, tok_run_cons.
  set (st := Tokenizer.run pre Tokenizer.init) in *.
  rewrite (step_open st open Hpre Hopen).
  rewrite (run_body body
             {| out := flushOut (out st) (Tokenizer.buf st); buf := [];
                inCode := true; codeLang := langOf (fenceCapture open);
                codeBuf := [] |} eq_refl Hbody). simpl.
  rewrite (step_close
             {| out := flushOut (out st) (Tokenizer.buf st); buf := [];
                inCode := true; codeLang := langOf (fenceCapture open);
                codeBuf := body |} close eq_refl Hclose). simpl.
  rewrite (finish_outside st Hpre), tokens_after, <- app_assoc. reflexivity.
Qed.

Lemma fence_opacity_witness :
  tokenize (joinNl [u "# A"; u "```sh"; u "# not a heading"; u "## nor this";
                    u "```"; u "## B"]) =
    [Heading 1 (u "A");
     Code (Some (u "sh")) (joinNl [u "# not a heading"; u "## nor this"]);
     Heading 2 (u "B")]
  /\ forall rest, closeFence (HASH :: rest) = false.
Proof.
  apply (fence_opacity
           (joinNl [u "# A"; u "```sh"; u "# not a heading"; u "## nor this";
                    u "```"; u "## B"])
           [u "# A"] (u "```sh") [u "# not a heading"; u "## nor this"]
           (u "```") [u "## B"]); reflexivity.
Defined.

(** C7, as the claim has it, fails for the other fence style: lines
    of tildes are text for [tokenize], so a line that starts with a
    hash between two of them is a Heading. *)
Lemma tilde_fence_is_not_opaque :
  tokenize (joinNl [u "~~~"; u "# x"; u "~~~"]) =
    [Text (u "~~~"); Heading 1 (u "x"); Text (u "~~~")]
  /\ closeFence (u "~~~") = false
  /\ openFenceTest (u "~~~") = false.
Proof. repeat split. Qed.

(** C2, as the code has it.  When the input ends inside a fence that
    was opened outside a fence, the tokens are those of the lines in
    front of the fence, followed, if at least one line came after the
    opening line, by one Text token: a line of three backticks, then
    the body lines.  The opening line itself (indentation, extra
    backticks, language tag) is not kept, and an opening line that is
    the last line of the input leaves no token. *)
Theorem unterminated_fence_as_text
    (md : str) (pre : list str) (open : str) (body : list str) :
  splitNl (normalizeNewlines md) = pre ++ open :: body ->
  inCode (Tokenizer.run pre Tokenizer.init) = false ->
  openFenceTest open = true ->
  noClose body = true ->
  tokenize md =
    tokenizeLines pre ++
    match body with
    | [] => []
    | _ :: _ => [Text (u "```" ++ LF :: joinNl body)]
    end.
Proof.
  intros Hmd Hpre Hopen Hbody.
  unfold tokenize. rewrite Hmd. unfold tokenizeLines.
  rewrite tok_run_app, tok_run_cons.
  set (st := Tokenizer.run pre Tokenizer.init) in *.
  rewrite (step_open st open Hpre Hopen).
  rewrite (run_body body
             {| out := flushOut (out st) (Tokenizer.buf st); buf := [];
                inCode := true; codeLang := langOf (fenceCapture open);
                codeBuf := [] |} eq_refl Hbody).
  rewrite (finish_outside st Hpre).
  unfold finish, flushText; simpl.
  destruct body; [rewrite app_nil_r|]; reflexivity.
Qed.

Lemma unterminated_fence_as_text_witness :
  tokenize ex_unterminated =
    [Heading 1 (u "T"); Text (joinNl [u "```"; u "console.log(1)"])].
Proof.
  apply (unterminated_fence_as_text ex_unterminated
           [u "# T"] (u "```js") [u "console.log(1)"]); reflexivity.
Defined.

(** C2, as the claim has it, fails: the input can end inside an
    unterminated fence without any Text token for it, and the Text
    token of the example does not hold the fence line of the input. *)
Lemma unterminated_fence_can_vanish :
  inCode (Tokenizer.run (splitNl (normalizeNewlines
            (joinNl [u "# T"; u "```js"]))) Tokenizer.init) = true
  /\ tokenize (joinNl [u "# T"; u "```js"]) = [Heading 1 (u "T")]
  /\ tokenize ex_unterminated <>
       [Heading 1 (u "T"); Text (joinNl [u "```js"; u "console.log(1)"])].
Proof.
  split; [reflexivity|]. split; [reflexivity|].
  vm_compute. discriminate.
Qed.

(** * Opening fences *)


Lemma dropWhile_app_stop {A} (p : A -> bool) (a : list A) (d : A) (b : list A) :
  p d = false -> dropWhile p (a ++ d :: b) = dropWhile p a ++ d :: b.
Proof.
  intros Hd. induction a as [|c a IH]; simpl.
  - rewrite Hd. reflexivity.
  - destruct (p c); [exact IH | reflexivity].
Qed.



Lemma forallb_repeat {A} (p : A -> bool) (c : A) (n : nat) :
  p c = true -> forallb p (repeat c n) = true.
Proof. intros H. induction n; simpl; [reflexivity|]. rewrite H. exact IHn. Qed.







(** * Serializer *)

Lemma segmentToMarkdown_heading_twice (s : Segment) l t rest :
  heading s = Some (l, t) -> parts s = Heading l t :: rest ->
  segmentToMarkdown s =
    trim (joinNl (headingLine l t :: headingLine l t ::
                  flat_map partLines rest)).
Proof.
  intros Hh Hp. unfold segmentToMarkdown. rewrite Hh, Hp. reflexivity.
Qed.

(** C1 at the failing input.  The section made of the lines [# A] and
    [x] carries its heading as attribute and as first member, and the
    serializer writes both: the text has the heading line twice, and
    tokenizing and segmenting it again gives two sections, at every
    depth, instead of the one that was serialized. *)
Theorem roundtrip_duplicates_heading :
  toSegments r0 (tokenize (joinNl [u "# A"; u "x"])) 1 = [ex_section]
  /\ segmentToMarkdown ex_section = joinNl [u "# A"; u "# A"; u "x"]
  /\ Forall (fun depth =>
       toSegments r0 (tokenize (joinNl [u "# A"; u "x"])) depth = [ex_section]
       /\ toSegments r0 (tokenize (segmentToMarkdown ex_section)) depth =
            [{| id := mkSegId 0 []; heading := Some (1, u "A");
                parts := [Heading 1 (u "A")] |};
             {| id := mkSegId 1 []; heading := Some (1, u "A");
                parts := [Heading 1 (u "A"); Text (u "x")] |}])
       [1; 2; 3].
Proof.
  split; [reflexivity|]. split; [reflexivity|].
  repeat constructor.
Qed.

(** * Text-run normalization *)

Section NormalizeFacts.

Lemma joinNl_cons l ls : joinNl (l :: ls) = l ++ tailSep ls.
Proof.
  revert l. induction ls as [|m ls IH]; intros l.
  - simpl. rewrite app_nil_r. reflexivity.
  - change (joinNl (l :: m :: ls)) with (l ++ LF :: joinNl (m :: ls)).
    rewrite IH. reflexivity.
Qed.

Lemma tailSep_app a b : tailSep (a ++ b) = tailSep a ++ tailSep b.
Proof. apply flat_map_app. Qed.

Lemma tailSep_blank k : tailSep (repeat [] k) = repeat LF k.
Proof. induction k; simpl; [reflexivity|]. f_equal. exact IHk. Qed.

Lemma takeWhile_dropWhile {A} (p : A -> bool) (l : list A) :
  takeWhile p l ++ dropWhile p l = l.
Proof.
  induction l as [|x l IH]; simpl; [reflexivity|].
  destruct (p x); simpl; [f_equal; exact IH | reflexivity].
Qed.

Lemma takeWhile_app_stop {A} (p : A -> bool) (a : list A) (d : A) (b : list A) :
  p d = false -> takeWhile p (a ++ d :: b) = takeWhile p a.
Proof.
  intros Hd. induction a as [|c a IH]; simpl.
  - rewrite Hd. reflexivity.
  - destruct (p c); [f_equal; exact IH | reflexivity].
Qed.

Lemma takeWhile_app_all {A} (p : A -> bool) (a b : list A) :
  forallb p a = true -> takeWhile p (a ++ b) = a ++ takeWhile p b.
Proof.
  induction a as [|c a IH]; intros H; [reflexivity|].
  simpl in H. apply andb_prop in H as [Hc H]. simpl. rewrite Hc.
  f_equal. apply IH, H.
Qed.

Lemma hasInk_false (s : str) : hasInk s = false -> forallb is_space s = true.
Proof.
  induction s as [|c s IH]; intros H; [reflexivity|].
  simpl in H. apply orb_false_iff in H as [Hc H].
  apply negb_false_iff in Hc. simpl. rewrite Hc. apply IH, H.
Qed.

(** The last code unit that is not whitespace splits an inked string. *)
Lemma last_ink_split (s : str) :
  hasInk s = true ->
  exists P c Q, s = P ++ c :: Q /\ is_space c = false /\
                forallb is_space Q = true.
Proof.
  induction s as [|x s IH]; intros H; [discriminate|].
  destruct (hasInk s) eqn:Hs.
  - destruct (IH eq_refl) as (P & c & Q & -> & Hc & HQ).
    exists (x :: P), c, Q. repeat split; assumption.
  - change (hasInk (x :: s)) with (negb (is_space x) || hasInk s) in H.
    rewrite Hs, orb_false_r in H. apply negb_true_iff in H.
    exists [], x, s. repeat split; [exact H | apply hasInk_false, Hs].
Qed.

(** ** The first replacement *)


Lemma stripLeading_LF (X : str) : stripLeading (LF :: X) = stripLeading X.
Proof.
  unfold stripLeading. simpl.
  destruct (afterLastNl (takeWhile is_space X)) as [r|]; [reflexivity|].
  apply takeWhile_dropWhile.
Qed.

Lemma stripLeading_LFs n (X : str) :
  stripLeading (repeat LF n ++ X) = stripLeading X.
Proof.
  induction n as [|n IH]; [reflexivity|].
  simpl. rewrite stripLeading_LF. exact IH.
Qed.

Lemma takeWhile_ink_app (A X : str) :
  hasInk A = true -> takeWhile is_space (A ++ X) = takeWhile is_space A.
Proof.
  induction A as [|c A IH]; intros H; [discriminate|].
  simpl in *. destruct (is_space c); simpl in *; [f_equal; apply IH, H|reflexivity].
Qed.

Lemma dropWhile_ink_app (A X : str) :
  hasInk A = true -> dropWhile is_space (A ++ X) = dropWhile is_space A ++ X.
Proof.
  induction A as [|c A IH]; intros H; [discriminate|].
  simpl in *. destruct (is_space c); simpl in *; [apply IH, H|reflexivity].
Qed.

Lemma stripLeading_ink_app (A X : str) :
  hasInk A = true -> stripLeading (A ++ X) = stripLeading A ++ X.
Proof.
  intros H. unfold stripLeading.
  rewrite (takeWhile_ink_app A X H), (dropWhile_ink_app A X H).
  destruct (afterLastNl (takeWhile is_space A)); [|reflexivity].
  apply app_assoc.
Qed.


Lemma hasInk_dropWhile (A : str) :
  hasInk (dropWhile is_space A) = hasInk A.
Proof.
  induction A as [|c A IH]; [reflexivity|].
  simpl. destruct (is_space c) eqn:E; simpl; [exact IH|].
  rewrite E. reflexivity.
Qed.

Lemma hasInk_stripLeading (A : str) :
  hasInk A = true -> hasInk (stripLeading A) = true.
Proof.
  intros H. unfold stripLeading.
  destruct (afterLastNl (takeWhile is_space A)); [|exact H].
  unfold hasInk. rewrite existsb_app. fold (hasInk (dropWhile is_space A)).
  rewrite hasInk_dropWhile, H. apply orb_true_r.
Qed.

(** ** The second replacement *)





Lemma collapseFrom_split (P : str) (c : N) (R : str) : forall j,
  N.eqb c LF = false ->
  collapseFrom j (P ++ c :: R) = collapseFrom j P ++ c :: collapseFrom 0 R.
Proof.
  induction P as [|d P IH]; intros j Hc; simpl.
  - rewrite Hc. reflexivity.
  - destruct (N.eqb d LF); [apply IH, Hc|].
    rewrite (IH 0 Hc), <- app_assoc. reflexivity.
Qed.

Lemma emitNl_space n : forallb is_space (emitNl n) = true.
Proof.
  unfold emitNl. destruct (n <? 3); [|reflexivity].
  apply forallb_repeat. reflexivity.
Qed.

Lemma collapseFrom_space (Y : str) : forall j,
  forallb is_space Y = true -> forallb is_space (collapseFrom j Y) = true.
Proof.
  induction Y as [|c Y IH]; intros j H; simpl.
  - apply emitNl_space.
  - simpl in H. apply andb_prop in H as [Hc H].
    destruct (N.eqb c LF); [apply IH, H|].
    rewrite forallb_app, emitNl_space. simpl. rewrite Hc. apply IH, H.
Qed.

Lemma emitNl_S n : exists Z, emitNl (S n) = LF :: Z.
Proof.
  unfold emitNl. destruct (S n <? 3); simpl; eauto.
Qed.

Lemma collapseFrom_S_head (Y : str) : forall j,
  exists Z, collapseFrom (S j) Y = LF :: Z.
Proof.
  induction Y as [|c Y IH]; intros j; simpl.
  - apply emitNl_S.
  - destruct (N.eqb c LF); [apply IH|].
    destruct (emitNl_S j) as [Z ->]. simpl. eauto.
Qed.

(** ** The third replacement *)

Lemma stripTrailing_ink (X : str) (c : N) (R : str) :
  is_space c = false ->
  stripTrailing (X ++ c :: R) = X ++ c :: stripTrailing R.
Proof.
  intros Hc. induction X as [|d X IH]; simpl.
  - assert (E : N.eqb c LF = false).
    { destruct (N.eqb_spec c LF) as [->|]; [discriminate Hc|reflexivity]. }
    rewrite E. reflexivity.
  - rewrite forallb_app. simpl. rewrite Hc, andb_false_r, andb_false_r.
    f_equal. exact IH.
Qed.

Lemma stripTrailing_blank (Y : str) :
  forallb is_space Y = true ->
  stripTrailing (collapseFrom 0 Y) = takeWhile notLF Y.
Proof.
  induction Y as [|c Y IH]; intros H; [reflexivity|].
  simpl in H. apply andb_prop in H as [Hc H]. simpl. unfold notLF at 1.
  destruct (N.eqb c LF) eqn:E; simpl.
  - destruct (collapseFrom_S_head Y 0) as [Z HZ].
    assert (Hs := collapseFrom_space Y 1 H).
    rewrite HZ in *. simpl in Hs. simpl. rewrite Hs. reflexivity.
  - rewrite E. simpl. f_equal. apply IH, H.
Qed.

Lemma takeWhile_notLF_LFs (Q : str) m :
  takeWhile notLF (Q ++ repeat LF m) = takeWhile notLF Q.
Proof.
  destruct m as [|m]; [rewrite app_nil_r; reflexivity|].
  simpl. apply takeWhile_app_stop. reflexivity.
Qed.


(** ** The three together *)

Lemma normalizeText_LFs n (X : str) :
  normalizeText (repeat LF n ++ X) = normalizeText X.
Proof. unfold normalizeText. rewrite stripLeading_LFs. reflexivity. Qed.

(** The normal form of an inked text, whatever LFs follow it. *)
Lemma normalizeText_inked (A : str) :
  hasInk A = true ->
  exists P c Q,
    stripLeading A = P ++ c :: Q /\ is_space c = false /\
    forallb is_space Q = true /\
    forall m, normalizeText (A ++ repeat LF m) =
              collapseNl P ++ c :: takeWhile notLF Q.
Proof.
  intros H.
  destruct (last_ink_split _ (hasInk_stripLeading A H))
    as (P & c & Q & HA & Hc & HQ).
  exists P, c, Q. repeat split; try assumption.
  intros m. unfold normalizeText, collapseNl.
  rewrite (stripLeading_ink_app A _ H), HA, <- app_assoc. simpl.
  assert (E : N.eqb c LF = false).
  { destruct (N.eqb_spec c LF) as [->|]; [discriminate Hc|reflexivity]. }
  rewrite (collapseFrom_split P c _ 0 E), (stripTrailing_ink _ c _ Hc).
  rewrite stripTrailing_blank, takeWhile_notLF_LFs; [reflexivity|].
  rewrite forallb_app, HQ. apply forallb_repeat. reflexivity.
Qed.

Lemma normalizeText_inked_LFs (A : str) m :
  hasInk A = true -> normalizeText (A ++ repeat LF m) = normalizeText A.
Proof.
  intros H. destruct (normalizeText_inked A H) as (P & c & Q & _ & _ & _ & E).
  rewrite (E m). specialize (E 0). simpl in E. rewrite app_nil_r in E.
  symmetry. exact E.
Qed.





Lemma trimEmptyJoin_normalizeText (ls : list str) :
  trimEmptyJoin ls = normalizeText (joinNl ls).
Proof. reflexivity. Qed.

Lemma LFs_snoc k (B : str) : repeat LF k ++ LF :: B = repeat LF (S k) ++ B.
Proof. induction k as [|k IH]; [reflexivity|]. simpl. f_equal. exact IH. Qed.


Lemma trimEmptyJoin_leading (buf : list str) k :
  trimEmptyJoin (repeat [] k ++ buf) = trimEmptyJoin buf.
Proof.
  rewrite !trimEmptyJoin_normalizeText.
  destruct k as [|k]; [reflexivity|].
  change (joinNl (repeat [] (S k) ++ buf))
    with (joinNl (([] : str) :: (repeat [] k ++ buf))).
  rewrite joinNl_cons, tailSep_app, tailSep_blank. simpl app.
  rewrite normalizeText_LFs.
  destruct buf as [|b buf]; [reflexivity|].
  rewrite joinNl_cons. simpl tailSep.
  apply (normalizeText_LFs 1).
Qed.

Lemma trimEmptyJoin_trailing (buf : list str) k :
  hasInk (joinNl buf) = true ->
  trimEmptyJoin (buf ++ repeat [] k) = trimEmptyJoin buf.
Proof.
  intros H. rewrite !trimEmptyJoin_normalizeText.
  destruct buf as [|b buf]; [discriminate|].
  change (joinNl ((b :: buf) ++ repeat [] k))
    with (joinNl (b :: (buf ++ repeat [] k))).
  rewrite joinNl_cons in H.
  rewrite !joinNl_cons, tailSep_app, tailSep_blank, app_assoc.
  apply normalizeText_inked_LFs, H.
Qed.

End NormalizeFacts.

(** * More on the segmenter *)

Section SegmenterMore.

Variable rnd : nat -> str.
Variable depth : nat.

Lemma step_parts st p :
  curIsLast st ->
  flat_map parts (segs (Segmenter.step rnd depth st p)) =
  flat_map parts (segs st) ++ [p].
Proof.
  intros Hc. destruct (isBoundary depth p) eqn:Hb.
  - destruct p as [l t|t|lg c]; try discriminate. simpl in Hb.
    rewrite (step_boundary rnd depth st l t Hb). simpl.
    rewrite flat_map_app. reflexivity.
  - destruct (snoc_cases (segs st)) as [Hs|(ss & s & Hs)].
    + rewrite (step_first rnd depth st p Hb Hs Hc), Hs. reflexivity.
    + rewrite (step_member rnd depth st p ss s Hb Hs Hc), Hs. simpl.
      rewrite !flat_map_app. simpl. rewrite !app_nil_r, app_assoc.
      reflexivity.
Qed.

Lemma run_parts ps : forall st,
  curIsLast st ->
  flat_map parts (segs (Segmenter.run rnd depth ps st)) =
  flat_map parts (segs st) ++ ps.
Proof.
  induction ps as [|p ps IH]; intros st Hc.
  - simpl. rewrite app_nil_r. reflexivity.
  - rewrite run_cons, IH by (apply step_curIsLast, Hc).
    rewrite (step_parts st p Hc), <- app_assoc. reflexivity.
Qed.

Lemma step_length st p :
  curIsLast st ->
  length (segs (Segmenter.step rnd depth st p)) =
  length (segs st) +
  (if isBoundary depth p then 1
   else match segs st with [] => 1 | _ :: _ => 0 end).
Proof.
  intros Hc. destruct (isBoundary depth p) eqn:Hb.
  - destruct p as [l t|t|lg c]; try discriminate. simpl in Hb.
    rewrite (step_boundary rnd depth st l t Hb). simpl.
    rewrite length_app. reflexivity.
  - destruct (snoc_cases (segs st)) as [Hs|(ss & s & Hs)].
    + rewrite (step_first rnd depth st p Hb Hs Hc), Hs. reflexivity.
    + rewrite (step_member rnd depth st p ss s Hb Hs Hc), Hs. simpl.
      rewrite !length_app. simpl. destruct ss; simpl; lia.
Qed.

Lemma run_length_open ps : forall st,
  curIsLast st -> segs st <> [] ->
  length (segs (Segmenter.run rnd depth ps st)) =
  length (segs st) + length (List.filter (isBoundary depth) ps).
Proof.
  induction ps as [|p ps IH]; intros st Hc Hne.
  - simpl. lia.
  - assert (Hl := step_length st p Hc).
    rewrite run_cons, IH.
    + rewrite Hl. simpl. destruct (isBoundary depth p); simpl.
      * lia.
      * destruct (segs st); [contradiction|]. lia.
    + apply step_curIsLast, Hc.
    + intros E. rewrite E in Hl. simpl in Hl.
      destruct (segs st); [contradiction|].
      simpl in Hl. destruct (isBoundary depth p); lia.
Qed.

Lemma step_ids st p :
  curIsLast st ->
  List.map id (segs st) = List.map (idAt rnd) (seq 0 (length (segs st))) ->
  List.map id (segs (Segmenter.step rnd depth st p)) =
  List.map (idAt rnd) (seq 0 (length (segs (Segmenter.step rnd depth st p)))).
Proof.
  intros Hc Hi. destruct (isBoundary depth p) eqn:Hb.
  - destruct p as [l t|t|lg c]; try discriminate. simpl in Hb.
    rewrite (step_boundary rnd depth st l t Hb). simpl.
    rewrite length_app, List.map_app, Hi. simpl.
    rewrite seq_app, List.map_app. reflexivity.
  - destruct (snoc_cases (segs st)) as [Hs|(ss & s & Hs)].
    + rewrite (step_first rnd depth st p Hb Hs Hc). reflexivity.
    + rewrite (step_member rnd depth st p ss s Hb Hs Hc). simpl.
      rewrite Hs in Hi. rewrite !length_app, !List.map_app in *. exact Hi.
Qed.

Lemma run_ids ps : forall st,
  curIsLast st ->
  List.map id (segs st) = List.map (idAt rnd) (seq 0 (length (segs st))) ->
  List.map id (segs (Segmenter.run rnd depth ps st)) =
  List.map (idAt rnd)
    (seq 0 (length (segs (Segmenter.run rnd depth ps st)))).
Proof.
  induction ps as [|p ps IH]; intros st Hc Hi; [exact Hi|].
  rewrite run_cons. apply IH; [apply step_curIsLast, Hc|].
  apply step_ids; assumption.
Qed.

Lemma step_later_headed st p :
  curIsLast st ->
  Forall (headedBoundary depth) (tail (segs st)) ->
  Forall (headedBoundary depth) (tail (segs (Segmenter.step rnd depth st p))).
Proof.
  intros Hc Ht. destruct (isBoundary depth p) eqn:Hb.
  - destruct p as [l t|t|lg c]; try discriminate. simpl in Hb.
    rewrite (step_boundary rnd depth st l t Hb). simpl.
    destruct (segs st) as [|s0 ss]; simpl; [constructor|].
    simpl in Ht. apply Forall_app. split; [exact Ht|].
    constructor; [|constructor]. exists l, t. split; [reflexivity|].
    apply Nat.leb_le, Hb.
  - destruct (snoc_cases (segs st)) as [Hs|(ss & s & Hs)].
    + rewrite (step_first rnd depth st p Hb Hs Hc). constructor.
    + rewrite (step_member rnd depth st p ss s Hb Hs Hc). simpl.
      rewrite Hs in Ht. destruct ss as [|s0 ss]; simpl in *; [constructor|].
      apply Forall_app in Ht as [H1 H2]. apply Forall_app. split; [exact H1|].
      constructor; [|constructor]. inversion H2 as [|? ? H _]; exact H.
Qed.

Lemma run_later_headed ps : forall st,
  curIsLast st ->
  Forall (headedBoundary depth) (tail (segs st)) ->
  Forall (headedBoundary depth)
    (tail (segs (Segmenter.run rnd depth ps st))).
Proof.
  induction ps as [|p ps IH]; intros st Hc Ht; [exact Ht|].
  rewrite run_cons. apply IH; [apply step_curIsLast, Hc|].
  apply step_later_headed; assumption.
Qed.

End SegmenterMore.

Lemma isBoundary_mono d d' p :
  d <= d' -> isBoundary d p = true -> isBoundary d' p = true.
Proof.
  intros Hd. destruct p as [l t| |]; simpl; try discriminate.
  intros H. apply Nat.leb_le in H. apply Nat.leb_le. lia.
Qed.

Lemma boundary_count_mono d d' ps :
  d <= d' ->
  length (List.filter (isBoundary d) ps) <=
  length (List.filter (isBoundary d') ps).
Proof.
  intros Hd. induction ps as [|p ps IH]; simpl; [lia|].
  destruct (isBoundary d p) eqn:E.
  - rewrite (isBoundary_mono d d' p Hd E). simpl. lia.
  - destruct (isBoundary d' p); simpl; lia.
Qed.

(** X1.  The sections hold every token exactly once and in the
    original order: the members of the sections, taken one section
    after the other, are the token sequence that was segmented. *)
Theorem segmenter_keeps_tokens
    (rnd : nat -> str) (ps : list Part) (depth : nat) :
  flat_map parts (toSegments rnd ps depth) = ps.
Proof.
  rewrite toSegments_unfiltered.
  apply (run_parts rnd depth ps Segmenter.init init_curIsLast).
Qed.

Lemma toSegments_length (rnd : nat -> str) (ps : list Part) (depth : nat) :
  length (toSegments rnd ps depth) =
  length (List.filter (isBoundary depth) ps) + leadingOpen depth ps.
Proof.
  rewrite toSegments_unfiltered. destruct ps as [|p ps]; [reflexivity|].
  rewrite run_cons.
  assert (Hl := step_length rnd depth Segmenter.init p init_curIsLast).
  rewrite run_length_open.
  - rewrite Hl. simpl. destruct (isBoundary depth p); simpl; lia.
  - apply step_curIsLast, init_curIsLast.
  - intros E. rewrite E in Hl. simpl in Hl.
    destruct (isBoundary depth p); discriminate.
Qed.

(** X2.  The number of sections is the number of headings of level at
    most [depth], plus one when the first token is not such a
    heading. *)
Theorem segmenter_section_count
    (rnd : nat -> str) (ps : list Part) (depth : nat) :
  length (toSegments rnd ps depth) =
  length (List.filter (isBoundary depth) ps) + leadingOpen depth ps.
Proof. apply toSegments_length. Qed.

(** X3.  Raising the depth never merges sections: the same tokens give
    at least as many sections at a larger depth. *)
Theorem segmenter_depth_monotone
    (rnd : nat -> str) (ps : list Part) (depth depth' : nat) :
  depth <= depth' ->
  length (toSegments rnd ps depth) <= length (toSegments rnd ps depth').
Proof.
  intros Hd. rewrite !toSegments_length.
  destruct ps as [|p ps]; [simpl; lia|].
  assert (Hc := boundary_count_mono depth depth' ps Hd).
  simpl. destruct (isBoundary depth p) eqn:E.
  - rewrite (isBoundary_mono depth depth' p Hd E). simpl. lia.
  - destruct (isBoundary depth' p); simpl; lia.
Qed.

Lemma segmenter_depth_monotone_witness :
  length (toSegments r0 [Text (u "p"); Heading 2 (u "B"); Heading 1 (u "A")] 1)
  <= length (toSegments r0 [Text (u "p"); Heading 2 (u "B"); Heading 1 (u "A")] 2).
Proof.
  apply (segmenter_depth_monotone r0
           [Text (u "p"); Heading 2 (u "B"); Heading 1 (u "A")] 1 2).
  lia.
Defined.

(** X4.  The identifiers of the sections count up from 0 in output
    order, each with the suffix drawn for that number, so no two
    sections of one result share an index. *)
Theorem segmenter_ids_in_order
    (rnd : nat -> str) (ps : list Part) (depth : nat) :
  List.map id (toSegments rnd ps depth) =
    List.map (idAt rnd) (seq 0 (length (toSegments rnd ps depth)))
  /\ NoDup (List.map (fun s => seg_index (id s)) (toSegments rnd ps depth)).
Proof.
  assert (H : List.map id (toSegments rnd ps depth) =
              List.map (idAt rnd) (seq 0 (length (toSegments rnd ps depth)))).
  { rewrite toSegments_unfiltered.
    apply (run_ids rnd depth ps Segmenter.init init_curIsLast). reflexivity. }
  split; [exact H|].
  rewrite <- (List.map_map id seg_index), H, List.map_map. simpl.
  rewrite List.map_id. apply NoDup_seq.
Qed.

(** X5.  Only the first section can be without heading: every later
    section carries a heading of level at most [depth]. *)
Theorem segmenter_later_sections_headed
    (rnd : nat -> str) (ps : list Part) (depth : nat) :
  Forall (headedBoundary depth) (tail (toSegments rnd ps depth)).
Proof.
  rewrite toSegments_unfiltered.
  apply (run_later_headed rnd depth ps Segmenter.init init_curIsLast).
  constructor.
Qed.

(** * Lines and line endings *)

Section LineFacts.

Lemma splitNl_cons s : exists l ls, splitNl s = l :: ls.
Proof.
  induction s as [|c s (l & ls & IH)]; simpl; [eauto|].
  destruct (N.eqb c LF); [eauto|]. rewrite IH. eauto.
Qed.

Lemma tailSep_cons l ls : tailSep (l :: ls) = LF :: joinNl (l :: ls).
Proof. rewrite joinNl_cons. reflexivity. Qed.

Lemma joinNl_splitNl s : joinNl (splitNl s) = s.
Proof.
  induction s as [|c s IH]; [reflexivity|]. simpl.
  destruct (splitNl_cons s) as (l & ls & E). rewrite E in *.
  destruct (N.eqb_spec c LF) as [->|_].
  - rewrite joinNl_cons, tailSep_cons, IH. reflexivity.
  - rewrite joinNl_cons in *. simpl. f_equal. exact IH.
Qed.

Lemma splitNl_line_app l rest :
  forallb notLF l = true -> splitNl (l ++ LF :: rest) = l :: splitNl rest.
Proof.
  induction l as [|c l IH]; intros H; [reflexivity|].
  simpl in H. apply andb_prop in H as [Hc H]. simpl.
  unfold notLF in Hc. apply negb_true_iff in Hc. rewrite Hc, (IH H).
  reflexivity.
Qed.

Lemma splitNl_line l : forallb notLF l = true -> splitNl l = [l].
Proof.
  induction l as [|c l IH]; intros H; [reflexivity|].
  simpl in H. apply andb_prop in H as [Hc H]. simpl.
  unfold notLF in Hc. apply negb_true_iff in Hc. rewrite Hc, (IH H).
  reflexivity.
Qed.

Lemma splitNl_joinNl ls :
  ls <> [] -> forallb (forallb notLF) ls = true -> splitNl (joinNl ls) = ls.
Proof.
  induction ls as [|l ls IH]; intros Hne H; [contradiction|].
  simpl in H. apply andb_prop in H as [Hl H].
  destruct ls as [|l2 ls]; [apply splitNl_line, Hl|].
  change (joinNl (l :: l2 :: ls)) with (l ++ LF :: joinNl (l2 :: ls)).
  rewrite (splitNl_line_app _ _ Hl), IH; [reflexivity|discriminate|exact H].
Qed.

Lemma normalizeNewlines_line_app l rest :
  forallb notCR l = true ->
  normalizeNewlines (l ++ rest) = l ++ normalizeNewlines rest.
Proof.
  induction l as [|c l IH]; intros H; [reflexivity|].
  simpl in H. apply andb_prop in H as [Hc H].
  unfold notCR in Hc. apply negb_true_iff in Hc.
  simpl. rewrite Hc, (IH H). reflexivity.
Qed.

Lemma normalizeNewlines_plain s :
  forallb notCR s = true -> normalizeNewlines s = s.
Proof.
  intros H. rewrite <- (app_nil_r s) at 1.
  rewrite (normalizeNewlines_line_app s [] H). apply app_nil_r.
Qed.

Lemma normalizeNewlines_CR_step J :
  head J <> Some LF ->
  normalizeNewlines (CR :: J) = LF :: normalizeNewlines J.
Proof.
  intros H. destruct J as [|d J]; [reflexivity|].
  simpl in H. change (normalizeNewlines (CR :: d :: J))
    with (if N.eqb d LF then LF :: normalizeNewlines J
          else LF :: normalizeNewlines (d :: J)).
  destruct (N.eqb_spec d LF) as [->|_]; [congruence|reflexivity].
Qed.

Lemma normalizeNewlines_other c t :
  N.eqb c CR = false -> normalizeNewlines (c :: t) = c :: normalizeNewlines t.
Proof.
  intros H. change (normalizeNewlines (c :: t))
    with (if N.eqb c CR
          then match t with
               | d :: t' => if N.eqb d LF then LF :: normalizeNewlines t'
                            else LF :: normalizeNewlines t
               | [] => [LF]
               end
          else c :: normalizeNewlines t).
  rewrite H. reflexivity.
Qed.

Lemma forallb_cons_intro {A} (p : A -> bool) c t :
  p c = true -> forallb p t = true -> forallb p (c :: t) = true.
Proof. intros H1 H2. simpl. rewrite H1. exact H2. Qed.

Lemma normalizeNewlines_no_CR_bounded n : forall s,
  length s <= n -> forallb notCR (normalizeNewlines s) = true.
Proof.
  induction n as [|n IH]; intros s Hn.
  - destruct s; [reflexivity|simpl in Hn; lia].
  - destruct s as [|c s]; [reflexivity|]. simpl in Hn.
    destruct (N.eqb c CR) eqn:Hc.
    + apply N.eqb_eq in Hc. subst c.
      destruct s as [|d s]; [reflexivity|]. simpl in Hn.
      destruct (N.eqb_spec d LF) as [->|Hd].
      * change (normalizeNewlines (CR :: LF :: s))
          with (LF :: normalizeNewlines s).
        apply forallb_cons_intro; [reflexivity|]. apply IH. lia.
      * rewrite normalizeNewlines_CR_step by (simpl; congruence).
        apply forallb_cons_intro; [reflexivity|]. apply IH. simpl. lia.
    + rewrite (normalizeNewlines_other c s Hc).
      apply forallb_cons_intro; [unfold notCR; rewrite Hc; reflexivity|].
      apply IH. lia.
Qed.

Lemma normalizeNewlines_no_CR s : forallb notCR (normalizeNewlines s) = true.
Proof. apply (normalizeNewlines_no_CR_bounded (length s)). lia. Qed.

Lemma noBreak_LF ls :
  forallb noBreak ls = true -> forallb (forallb notLF) ls = true.
Proof.
  induction ls as [|l ls IH]; intros H; [reflexivity|].
  simpl in *. apply andb_prop in H as [Hl H].
  apply andb_prop in Hl as [Hl _]. rewrite Hl, (IH H). reflexivity.
Qed.

Lemma normalizeNewlines_CRLF ls :
  forallb noBreak ls = true ->
  normalizeNewlines (joinWith [CR; LF] ls) = joinNl ls.
Proof.
  induction ls as [|l ls IH]; intros H; [reflexivity|].
  simpl in H. apply andb_prop in H as [Hl H].
  apply andb_prop in Hl as [_ Hl].
  destruct ls as [|l2 ls]; [apply normalizeNewlines_plain, Hl|].
  change (joinWith [CR; LF] (l :: l2 :: ls))
    with (l ++ CR :: LF :: joinWith [CR; LF] (l2 :: ls)).
  rewrite (normalizeNewlines_line_app _ _ Hl).
  change (normalizeNewlines (CR :: LF :: joinWith [CR; LF] (l2 :: ls)))
    with (LF :: normalizeNewlines (joinWith [CR; LF] (l2 :: ls))).
  rewrite (IH H). reflexivity.
Qed.

Lemma joinWith_CR_head ls :
  forallb noBreak ls = true -> head (joinWith [CR] ls) <> Some LF.
Proof.
  destruct ls as [|l ls]; [discriminate|]. intros H.
  simpl in H. apply andb_prop in H as [Hl _].
  apply andb_prop in Hl as [Hl _].
  destruct l as [|c l].
  - destruct ls; discriminate.
  - simpl in Hl. apply andb_prop in Hl as [Hc _].
    unfold notLF in Hc. apply negb_true_iff, N.eqb_neq in Hc.
    destruct ls; simpl; congruence.
Qed.

Lemma normalizeNewlines_CR ls :
  forallb noBreak ls = true ->
  normalizeNewlines (joinWith [CR] ls) = joinNl ls.
Proof.
  induction ls as [|l ls IH]; intros H; [reflexivity|].
  assert (H' := H). simpl in H. apply andb_prop in H as [Hl H].
  apply andb_prop in Hl as [_ Hl].
  destruct ls as [|l2 ls]; [apply normalizeNewlines_plain, Hl|].
  change (joinWith [CR] (l :: l2 :: ls))
    with (l ++ CR :: joinWith [CR] (l2 :: ls)).
  rewrite (normalizeNewlines_line_app _ _ Hl).
  rewrite normalizeNewlines_CR_step by (apply joinWith_CR_head, H).
  rewrite (IH H). reflexivity.
Qed.

Lemma joinNl_no_CR ls :
  forallb noBreak ls = true -> forallb notCR (joinNl ls) = true.
Proof.
  induction ls as [|l ls IH]; intros H; [reflexivity|].
  simpl in H. apply andb_prop in H as [Hl H].
  apply andb_prop in Hl as [_ Hl].
  destruct ls as [|l2 ls]; [exact Hl|].
  change (joinNl (l :: l2 :: ls)) with (l ++ LF :: joinNl (l2 :: ls)).
  rewrite forallb_app, Hl. simpl. apply IH, H.
Qed.

(** The lines [tokenize] works on, for a text given by its lines. *)
Lemma lines_of_joinNl ls :
  ls <> [] -> forallb noBreak ls = true ->
  splitNl (normalizeNewlines (joinNl ls)) = ls.
Proof.
  intros Hne H.
  rewrite (normalizeNewlines_plain _ (joinNl_no_CR ls H)).
  apply splitNl_joinNl; [exact Hne | apply noBreak_LF, H].
Qed.

End LineFacts.

(** X6.  [split] and [join] on the line feed undo each other: joining
    the lines of a text gives the text back, and splitting the join of
    a non-empty list of lines without line feed gives the lines
    back. *)
Theorem split_join_roundtrip (s : str) (ls : list str) :
  joinNl (splitNl s) = s
  /\ (ls <> [] -> forallb (forallb notLF) ls = true ->
      splitNl (joinNl ls) = ls).
Proof. split; [apply joinNl_splitNl | apply splitNl_joinNl]. Qed.

Lemma split_join_roundtrip_witness :
  splitNl (joinNl [u "a"; []; u "b c"; []]) = [u "a"; []; u "b c"; []].
Proof.
  apply (split_join_roundtrip [] [u "a"; []; u "b c"; []]);
    [discriminate | reflexivity].
Defined.

(** X7.  The tokens do not depend on the line-ending convention: a
    text whose line endings were already unified tokenizes as before,
    and the same lines joined by CR LF, by CR alone or by LF give the
    same tokens. *)
Theorem tokenize_line_endings (md : str) (ls : list str) :
  tokenize (normalizeNewlines md) = tokenize md
  /\ (ls <> [] -> forallb noBreak ls = true ->
      tokenize (joinWith [CR; LF] ls) = tokenizeLines ls
      /\ tokenize (joinWith [CR] ls) = tokenizeLines ls
      /\ tokenize (joinNl ls) = tokenizeLines ls).
Proof.
  split.
  - unfold tokenize.
    rewrite (normalizeNewlines_plain _ (normalizeNewlines_no_CR md)).
    reflexivity.
  - intros Hne H. unfold tokenize.
    rewrite (normalizeNewlines_CRLF ls H), (normalizeNewlines_CR ls H).
    rewrite (lines_of_joinNl ls Hne H).
    rewrite (splitNl_joinNl ls Hne (noBreak_LF ls H)). auto.
Qed.

Lemma tokenize_line_endings_witness :
  tokenize (joinWith [CR; LF] [u "# A"; u "x"; []; u "y"]) =
    tokenizeLines [u "# A"; u "x"; []; u "y"]
  /\ tokenize (joinWith [CR] [u "# A"; u "x"; []; u "y"]) =
    tokenizeLines [u "# A"; u "x"; []; u "y"]
  /\ tokenize (joinNl [u "# A"; u "x"; []; u "y"]) =
    tokenizeLines [u "# A"; u "x"; []; u "y"].
Proof.
  apply (tokenize_line_endings [] [u "# A"; u "x"; []; u "y"]);
    [discriminate | reflexivity].
Defined.

(** * More on the tokenizer *)

Section TokenizerMore.

Lemma dropWhile_idem {A} (p : A -> bool) (l : list A) :
  dropWhile p (dropWhile p l) = dropWhile p l.
Proof.
  induction l as [|x l IH]; [reflexivity|]. simpl.
  destruct (p x) eqn:E; [exact IH|]. simpl. rewrite E. reflexivity.
Qed.

Lemma dropWhile_head {A} (p : A -> bool) (l : list A) d a :
  dropWhile p l = d :: a -> p d = false.
Proof.
  induction l as [|x l IH]; [discriminate|]. simpl.
  destruct (p x) eqn:E; [exact IH|]. intros [= <- <-]. exact E.
Qed.

Lemma trimEnd_idem (a : str) : trimEnd (trimEnd a) = trimEnd a.
Proof.
  unfold trimEnd. rewrite rev_involutive, dropWhile_idem. reflexivity.
Qed.

Lemma trimEnd_head d a :
  is_space d = false ->
  trimEnd (d :: a) = d :: trimEnd a.
Proof.
  intros Hd. unfold trimEnd. simpl rev.
  rewrite (dropWhile_app_stop is_space (rev a) d [] Hd), rev_app_distr.
  reflexivity.
Qed.

Lemma trim_trimEnd s : trim s = trimEnd (dropWhile is_space s).
Proof. reflexivity. Qed.

Lemma trim_idem (s : str) : trim (trim s) = trim s.
Proof.
  rewrite !trim_trimEnd.
  destruct (dropWhile is_space s) as [|d a] eqn:E; [reflexivity|].
  assert (Hd := dropWhile_head _ _ _ _ E).
  rewrite (trimEnd_head d a Hd). simpl. rewrite Hd.
  rewrite <- (trimEnd_head d a Hd). apply trimEnd_idem.
Qed.

Lemma trim_nil_or_cons s :
  trim s = [] \/ exists d a, trim s = d :: a /\ is_space d = false.
Proof.
  rewrite trim_trimEnd.
  destruct (dropWhile is_space s) as [|d a] eqn:E; [left; reflexivity|].
  right. assert (Hd := dropWhile_head _ _ _ _ E).
  rewrite (trimEnd_head d a Hd). eauto.
Qed.

Lemma headingRe_level line k body :
  headingRe line = Some (k, body) -> 1 <= k <= 6.
Proof.
  unfold headingRe.
  destruct (_ && _) eqn:E; [|discriminate].
  apply andb_prop in E as [E1 E2].
  apply Nat.leb_le in E1. apply Nat.leb_le in E2.
  destruct (dropWhile (N.eqb HASH) line) as [|c r]; [discriminate|].
  destruct (is_space c); [|discriminate].
  destruct (forallb is_dot _); [|discriminate].
  intros [= <- _]. lia.
Qed.

(** A heading line starts with a hash, so it is no opening fence. *)
Lemma headingRe_not_open line k body :
  headingRe line = Some (k, body) -> openFenceTest line = false.
Proof.
  intros H. unfold headingRe in H.
  destruct line as [|c line]; [discriminate|].
  destruct (N.eqb HASH c) eqn:Hc.
  - apply N.eqb_eq in Hc. subst c. reflexivity.
  - cbn [takeWhile dropWhile] in H. rewrite Hc in H. discriminate.
Qed.

Lemma langOf_ok cap : langOK (langOf cap).
Proof.
  unfold langOf. destruct (trim cap) as [|d a] eqn:E; [exact I|].
  split; [discriminate|]. rewrite <- E. apply trim_idem.
Qed.

Lemma flushOut_ok o b :
  Forall tokenOK o -> Forall tokenOK (flushOut o b).
Proof.
  intros H. unfold flushOut. destruct b; [exact H|].
  destruct (trimEmptyJoin _) eqn:E; [exact H|].
  apply Forall_app. split; [exact H|].
  constructor; [discriminate|constructor].
Qed.

Lemma step_ok st line :
  Forall tokenOK (out st) -> langOK (codeLang st) ->
  Forall tokenOK (out (Tokenizer.step st line)) /\
  langOK (codeLang (Tokenizer.step st line)).
Proof.
  intros Ho Hl. unfold Tokenizer.step.
  destruct (negb (inCode st) && openFenceTest line).
  - simpl. split; [apply flushOut_ok, Ho | apply langOf_ok].
  - destruct (inCode st).
    + destruct (closeFence line); simpl; [|split; assumption].
      split; [|exact I]. apply Forall_app. split; [exact Ho|].
      constructor; [exact Hl|constructor].
    + destruct (headingRe line) as [[k body]|] eqn:E; simpl;
        [|split; assumption].
      split; [|exact Hl]. apply Forall_app.
      split; [apply flushOut_ok, Ho|].
      constructor; [|constructor].
      split; [apply (headingRe_level _ _ _ E) | apply trim_idem].
Qed.

Lemma run_ok ls : forall st,
  Forall tokenOK (out st) -> langOK (codeLang st) ->
  Forall tokenOK (out (Tokenizer.run ls st)) /\
  langOK (codeLang (Tokenizer.run ls st)).
Proof.
  induction ls as [|l ls IH]; intros st Ho Hl; [split; assumption|].
  rewrite tok_run_cons.
  destruct (step_ok st l Ho Hl) as [Ho' Hl']. apply IH; assumption.
Qed.

Lemma finish_ok st :
  Forall tokenOK (out st) -> Forall tokenOK (finish st).
Proof.
  intros Ho. unfold finish, flushText; simpl.
  assert (Hf := flushOut_ok (out st) (Tokenizer.buf st) Ho).
  destruct (inCode st); [|exact Hf].
  destruct (codeBuf st); [exact Hf|].
  apply Forall_app. split; [exact Hf|].
  constructor; [discriminate|constructor].
Qed.

Lemma step_idle st line : idle st -> idle (Tokenizer.step st line).
Proof.
  intros Hi. unfold Tokenizer.step, idle in *.
  destruct (inCode st) eqn:E; simpl.
  - destruct (closeFence line); simpl; [auto|discriminate].
  - destruct (openFenceTest line); simpl; [discriminate|].
    destruct (headingRe line) as [[k body]|]; simpl; auto.
Qed.

Lemma run_idle ls : forall st, idle st -> idle (Tokenizer.run ls st).
Proof.
  induction ls as [|l ls IH]; intros st Hi; [exact Hi|].
  rewrite tok_run_cons. apply IH, step_idle, Hi.
Qed.

Lemma init_idle : idle Tokenizer.init.
Proof. intros _. split; reflexivity. Qed.

Lemma step_heading st line k body :
  inCode st = false -> headingRe line = Some (k, body) ->
  Tokenizer.step st line =
    {| out := flushOut (out st) (Tokenizer.buf st) ++ [Heading k (trim body)];
       buf := []; inCode := false; codeLang := codeLang st;
       codeBuf := codeBuf st |}.
Proof.
  intros Hi Hh. unfold Tokenizer.step.
  rewrite Hi, (headingRe_not_open _ _ _ Hh), Hh. simpl. rewrite Hi.
  reflexivity.
Qed.

Lemma step_plain st line :
  inCode st = false -> plainLine line = true ->
  Tokenizer.step st line =
    {| out := out st; buf := Tokenizer.buf st ++ [line]; inCode := false;
       codeLang := codeLang st; codeBuf := codeBuf st |}.
Proof.
  intros Hi Hp. unfold plainLine in Hp. apply andb_prop in Hp as [Ho Hh].
  apply negb_true_iff in Ho. unfold Tokenizer.step. rewrite Hi, Ho. simpl.
  destruct (headingRe line); [discriminate|]. reflexivity.
Qed.

Lemma run_plain ls : forall st,
  inCode st = false -> forallb plainLine ls = true ->
  Tokenizer.run ls st =
    {| out := out st; buf := Tokenizer.buf st ++ ls; inCode := false;
       codeLang := codeLang st; codeBuf := codeBuf st |}.
Proof.
  induction ls as [|l ls IH]; intros st Hi H.
  - simpl. rewrite app_nil_r. destruct st; simpl in *. subst. reflexivity.
  - simpl in H. apply andb_prop in H as [Hl H].
    rewrite tok_run_cons, (step_plain st l Hi Hl), IH; [|reflexivity|exact H].
    simpl. rewrite <- app_assoc. reflexivity.
Qed.

End TokenizerMore.

(** X8.  Every token [tokenize] produces is well formed: a heading has
    a level from 1 to 6 and a text without whitespace at either end, a
    text token is never empty, and the language of a code token is
    absent or a non-empty tag without whitespace at either end. *)
Theorem tokenize_tokens_well_formed (md : str) :
  Forall tokenOK (tokenize md).
Proof.
  unfold tokenize, tokenizeLines. apply finish_ok.
  apply (run_ok _ Tokenizer.init); [constructor | exact I].
Qed.

(** X9.  Outside a fence a heading line cuts the text in two: the
    tokens of the whole are the tokens of the lines in front, the
    heading, and the tokens of the lines behind. *)
Theorem heading_line_splits_tokens
    (pre : list str) (h : str) (post : list str) (k : nat) (body : str) :
  inCode (Tokenizer.run pre Tokenizer.init) = false ->
  headingRe h = Some (k, body) ->
  tokenizeLines (pre ++ h :: post) =
    tokenizeLines pre ++ Heading k (trim body) :: tokenizeLines post.
Proof.
  intros Hi Hh. unfold tokenizeLines.
  rewrite tok_run_app, tok_run_cons.
  set (st := Tokenizer.run pre Tokenizer.init) in *.
  destruct (run_idle pre Tokenizer.init init_idle Hi) as [Hl Hb].
  fold st in Hl, Hb.
  rewrite (step_heading st h k body Hi Hh), Hl, Hb.
  rewrite tokens_after, (finish_outside st Hi), <- app_assoc. reflexivity.
Qed.

Lemma heading_line_splits_tokens_witness :
  tokenizeLines ([u "a"; u "```"; u "# c"; u "```"; u "b"] ++
                 u "## H  " :: [u "z"]) =
    tokenizeLines [u "a"; u "```"; u "# c"; u "```"; u "b"] ++
    Heading 2 (u "H") :: tokenizeLines [u "z"].
Proof.
  apply (heading_line_splits_tokens
           [u "a"; u "```"; u "# c"; u "```"; u "b"] (u "## H  ") [u "z"]
           2 (u "H  ")); reflexivity.
Defined.

(** * Normalization is idempotent *)

Section NormalizeIdem.

Lemma stripTrailing_prefix s : exists r, s = stripTrailing s ++ r.
Proof.
  induction s as [|c s [r IH]]; [exists []; reflexivity|]. simpl.
  destruct (N.eqb c LF && forallb is_space s).
  - exists (c :: s). reflexivity.
  - exists r. simpl. f_equal. exact IH.
Qed.

Lemma stripTrailing_space t :
  forallb is_space (stripTrailing t) = forallb is_space t.
Proof.
  induction t as [|c t IH]; [reflexivity|]. simpl.
  destruct (N.eqb_spec c LF) as [->|Hc]; simpl.
  - destruct (forallb is_space t) eqn:E; [reflexivity|].
    simpl. exact IH.
  - rewrite IH. reflexivity.
Qed.

Lemma stripTrailing_idem s : stripTrailing (stripTrailing s) = stripTrailing s.
Proof.
  induction s as [|c s IH]; [reflexivity|]. simpl.
  destruct (N.eqb c LF && forallb is_space s) eqn:E; [reflexivity|].
  simpl. rewrite stripTrailing_space, E, IH. reflexivity.
Qed.

Lemma emitNl_cases j :
  emitNl j = [] \/ emitNl j = [LF] \/ emitNl j = [LF; LF].
Proof.
  unfold emitNl. destruct j as [|[|[|j]]]; simpl; auto.
Qed.

Lemma noTriple_emit j c X :
  N.eqb c LF = false -> noTriple (emitNl j ++ c :: X) = noTriple X.
Proof.
  intros Hc.
  destruct (emitNl_cases j) as [-> | [-> | ->]]; simpl; rewrite Hc;
    destruct X; reflexivity.
Qed.

Lemma noTriple_collapse y : forall j, noTriple (collapseFrom j y) = true.
Proof.
  induction y as [|c y IH]; intros j; simpl.
  - destruct (emitNl_cases j) as [-> | [-> | ->]]; reflexivity.
  - destruct (N.eqb c LF) eqn:Hc; [apply IH|].
    rewrite (noTriple_emit j c _ Hc). apply IH.
Qed.

Lemma startsLFLF_app t r : startsLFLF t = true -> startsLFLF (t ++ r) = true.
Proof.
  destruct t as [|a [|b t]]; try discriminate. intros H. exact H.
Qed.

Lemma noTriple_prefix p r : noTriple (p ++ r) = true -> noTriple p = true.
Proof.
  induction p as [|c p IH]; intros H; [reflexivity|].
  simpl in *. apply andb_prop in H as [H1 H2]. rewrite (IH H2), andb_true_r.
  destruct (N.eqb c LF); [|reflexivity]. simpl in *.
  destruct (startsLFLF p) eqn:E; [|reflexivity].
  rewrite (startsLFLF_app p r E) in H1. discriminate.
Qed.

Lemma noTriple_suffix a b : noTriple (a ++ b) = true -> noTriple b = true.
Proof.
  induction a as [|c a IH]; intros H; [exact H|].
  simpl in H. apply andb_prop in H as [_ H]. apply IH, H.
Qed.

Lemma emitNl_small j : j <= 2 -> emitNl j = repeat LF j.
Proof.
  intros H. unfold emitNl. destruct j as [|[|[|j]]]; try lia; reflexivity.
Qed.

Lemma collapse_noTriple_id s : forall j,
  j <= 2 -> noTriple (repeat LF j ++ s) = true ->
  collapseFrom j s = repeat LF j ++ s.
Proof.
  induction s as [|c s IH]; intros j Hj H.
  - simpl. rewrite app_nil_r. apply emitNl_small, Hj.
  - simpl. destruct (N.eqb c LF) eqn:Hc.
    + apply N.eqb_eq in Hc. subst c. rewrite LFs_snoc in *.
      apply IH; [|exact H].
      destruct j as [|[|[|j]]]; try lia. simpl in H. discriminate.
    + rewrite (emitNl_small j Hj). f_equal. f_equal.
      apply (IH 0); [lia|]. simpl. apply noTriple_suffix in H.
      simpl in H. apply andb_prop in H as [_ H]. exact H.
Qed.

Lemma afterLastNl_None w : afterLastNl w = None -> forallb notLF w = true.
Proof.
  induction w as [|c w IH]; [reflexivity|]. simpl.
  destruct (afterLastNl w); [discriminate|].
  unfold notLF at 1. destruct (N.eqb c LF); [discriminate|].
  intros _. apply IH. reflexivity.
Qed.

Lemma noLF_afterLastNl w : forallb notLF w = true -> afterLastNl w = None.
Proof.
  induction w as [|c w IH]; [reflexivity|]. simpl. intros H.
  apply andb_prop in H as [Hc H]. rewrite (IH H).
  unfold notLF in Hc. apply negb_true_iff in Hc. rewrite Hc. reflexivity.
Qed.

Lemma afterLastNl_Some w r :
  afterLastNl w = Some r ->
  forallb notLF r = true /\ exists w0, w = w0 ++ LF :: r.
Proof.
  revert r. induction w as [|c w IH]; intros r; [discriminate|]. simpl.
  destruct (afterLastNl w) as [r'|] eqn:E.
  - intros [= <-]. destruct (IH r' eq_refl) as (H & w0 & ->).
    split; [exact H|]. exists (c :: w0). reflexivity.
  - destruct (N.eqb_spec c LF) as [->|]; [|discriminate]. intros [= <-].
    split; [apply afterLastNl_None, E|]. exists []. reflexivity.
Qed.

Lemma takeWhile_all {A} (p : A -> bool) l : forallb p (takeWhile p l) = true.
Proof.
  induction l as [|x l IH]; [reflexivity|]. simpl.
  destruct (p x) eqn:E; [|reflexivity]. simpl. rewrite E. exact IH.
Qed.

Lemma takeWhile_dropWhile_nil {A} (p : A -> bool) l :
  takeWhile p (dropWhile p l) = [].
Proof.
  induction l as [|x l IH]; [reflexivity|]. simpl.
  destruct (p x) eqn:E; [exact IH|]. simpl. rewrite E. reflexivity.
Qed.

Lemma takeWhile_app_prefix {A} (f : A -> bool) p r :
  exists X, takeWhile f (p ++ r) = takeWhile f p ++ X.
Proof.
  induction p as [|x p [X IH]]; simpl; [eauto|].
  destruct (f x); [|exists []; reflexivity].
  exists X. simpl. f_equal. exact IH.
Qed.

Lemma leadClean_stripLeading s : leadClean (stripLeading s) = true.
Proof.
  unfold leadClean, stripLeading.
  destruct (afterLastNl (takeWhile is_space s)) as [r|] eqn:E.
  - destruct (afterLastNl_Some _ _ E) as (Hr & w0 & Hw).
    assert (Hs : forallb is_space r = true).
    { assert (Ha := takeWhile_all is_space s). rewrite Hw in Ha.
      rewrite forallb_app in Ha. apply andb_prop in Ha as [_ Ha].
      simpl in Ha. exact Ha. }
    rewrite (takeWhile_app_all _ r _ Hs), takeWhile_dropWhile_nil, app_nil_r.
    exact Hr.
  - apply afterLastNl_None, E.
Qed.

Lemma leadClean_fixed y : leadClean y = true -> stripLeading y = y.
Proof.
  intros H. unfold stripLeading. rewrite (noLF_afterLastNl _ H). reflexivity.
Qed.

Lemma collapse_noLF_prefix W D :
  forallb notLF W = true -> collapseFrom 0 (W ++ D) = W ++ collapseFrom 0 D.
Proof.
  induction W as [|c W IH]; intros H; [reflexivity|].
  simpl in H. apply andb_prop in H as [Hc H].
  unfold notLF in Hc. apply negb_true_iff in Hc.
  simpl. rewrite Hc. simpl. f_equal. apply IH, H.
Qed.

Lemma leadClean_collapse y : leadClean y = true -> leadClean (collapseNl y) = true.
Proof.
  unfold leadClean, collapseNl. intros H.
  rewrite <- (takeWhile_dropWhile is_space y) at 1.
  rewrite (collapse_noLF_prefix _ _ H).
  rewrite (takeWhile_app_all _ _ _ (takeWhile_all is_space y)).
  destruct (dropWhile is_space y) as [|d D] eqn:E.
  - simpl. rewrite app_nil_r. exact H.
  - assert (Hd := dropWhile_head _ _ _ _ E).
    assert (Hn : N.eqb d LF = false).
    { destruct (N.eqb_spec d LF) as [->|]; [discriminate Hd|reflexivity]. }
    simpl. rewrite Hn. simpl. rewrite Hd, app_nil_r. exact H.
Qed.

Lemma leadClean_prefix p r : leadClean (p ++ r) = true -> leadClean p = true.
Proof.
  unfold leadClean. destruct (takeWhile_app_prefix is_space p r) as [X ->].
  rewrite forallb_app. intros H. apply andb_prop in H as [H _]. exact H.
Qed.

Lemma normalizeText_idem s : normalizeText (normalizeText s) = normalizeText s.
Proof.
  set (n := normalizeText s).
  assert (Hl : leadClean n = true).
  { unfold n, normalizeText.
    destruct (stripTrailing_prefix (collapseNl (stripLeading s))) as [r Hr].
    apply (leadClean_prefix _ r). rewrite <- Hr.
    apply leadClean_collapse, leadClean_stripLeading. }
  assert (Ht : noTriple n = true).
  { unfold n, normalizeText.
    destruct (stripTrailing_prefix (collapseNl (stripLeading s))) as [r Hr].
    apply (noTriple_prefix _ r). rewrite <- Hr. apply noTriple_collapse. }
  unfold normalizeText at 1. rewrite (leadClean_fixed n Hl).
  unfold collapseNl. rewrite (collapse_noTriple_id n 0); [|lia|exact Ht].
  simpl. unfold n, normalizeText. apply stripTrailing_idem.
Qed.

End NormalizeIdem.

(** X10.  Normalizing twice is normalizing once: the three
    replacements of [trimEmptyJoin] leave their own result unchanged,
    so a text run that is its own single line of input comes out as it
    went in. *)
Theorem normalization_idempotent (s : str) (ls : list str) :
  normalizeText (normalizeText s) = normalizeText s
  /\ trimEmptyJoin [trimEmptyJoin ls] = trimEmptyJoin ls.
Proof.
  split; [apply normalizeText_idem|].
  rewrite !trimEmptyJoin_normalizeText. simpl joinNl at 1.
  apply normalizeText_idem.
Qed.

(** * Round trips of single tokens *)

Section TokenRoundTrips.

Lemma splitNl_app_LF a b : splitNl (a ++ LF :: b) = splitNl a ++ splitNl b.
Proof.
  induction a as [|c a IH]; [reflexivity|]. simpl.
  destruct (N.eqb c LF); rewrite IH; [reflexivity|].
  destruct (splitNl_cons a) as (l & ls & ->). reflexivity.
Qed.

Lemma is_dot_noBreak l : forallb is_dot l = true -> noBreak l = true.
Proof.
  intros H. unfold noBreak. apply andb_true_intro.
  induction l as [|c l IH]; [split; reflexivity|].
  simpl in H. apply andb_prop in H as [Hc H]. destruct (IH H) as [E1 E2].
  unfold is_dot, is_line_terminator in Hc.
  apply negb_true_iff in Hc.
  apply orb_false_iff in Hc as [Hc _]. apply orb_false_iff in Hc as [Hc _].
  apply orb_false_iff in Hc as [H1 H2].
  split; apply forallb_cons_intro; try assumption.
  - unfold notLF, LF. rewrite H1. reflexivity.
  - unfold notCR, CR. rewrite H2. reflexivity.
Qed.

(** A text that starts and ends with a code unit other than
    whitespace is its own trimmed form. *)
Lemma trim_bounded c m d :
  is_space c = false -> is_space d = false ->
  trim (c :: m ++ [d]) = c :: m ++ [d].
Proof.
  intros Hc Hd. unfold trim.
  assert (E : dropWhile is_space (c :: m ++ [d]) = c :: m ++ [d])
    by (simpl; rewrite Hc; reflexivity).
  rewrite E.
  assert (R : rev (c :: m ++ [d]) = d :: rev (c :: m))
    by apply (rev_unit (c :: m) d).
  rewrite R.
  assert (D : dropWhile is_space (d :: rev (c :: m)) = d :: rev (c :: m))
    by (cbn [dropWhile]; rewrite Hd; reflexivity).
  rewrite D.
  change (rev (d :: rev (c :: m))) with (rev (rev (c :: m)) ++ [d]).
  rewrite rev_involutive. reflexivity.
Qed.

Lemma fenceLine_open l :
  forallb is_dot l = true -> openFence (u "```" ++ l) = Some l.
Proof. intros H. unfold openFence. simpl. rewrite H. reflexivity. Qed.

Lemma fenceLine_capture l :
  forallb is_dot l = true -> fenceCapture (u "```" ++ l) = l.
Proof. intros H. unfold fenceCapture. rewrite (fenceLine_open l H). reflexivity. Qed.

Lemma langOf_trimmed l : l <> [] -> trim l = l -> langOf l = Some l.
Proof.
  intros Hne Ht. unfold langOf. rewrite Ht.
  destruct l; [contradiction|reflexivity].
Qed.

Lemma run_fenced_block st open body close :
  inCode st = false -> openFenceTest open = true ->
  noClose body = true -> closeFence close = true ->
  Tokenizer.run (open :: body ++ [close]) st =
    {| out := flushOut (out st) (Tokenizer.buf st) ++
              [Code (langOf (fenceCapture open)) (joinNl body)];
       buf := []; inCode := false; codeLang := None; codeBuf := [] |}.
Proof.
  intros Hi Ho Hb Hc.
  rewrite tok_run_cons, tok_run_app, (step_open st open Hi Ho).
  rewrite (run_body body
             {| out := flushOut (out st) (Tokenizer.buf st); buf := [];
                inCode := true; codeLang := langOf (fenceCapture open);
                codeBuf := [] |} eq_refl Hb). simpl.
  rewrite (step_close
             {| out := flushOut (out st) (Tokenizer.buf st); buf := [];
                inCode := true; codeLang := langOf (fenceCapture open);
                codeBuf := body |} close eq_refl Hc). reflexivity.
Qed.

Lemma fence_block_tokens l code :
  forallb is_dot l = true ->
  noClose (splitNl code) = true ->
  tokenizeLines ((u "```" ++ l) :: splitNl code ++ [u "```"]) =
    [Code (langOf l) code].
Proof.
  intros Hd Hc. unfold tokenizeLines.
  assert (Ho := fenceLine_open _ Hd).
  rewrite (run_fenced_block Tokenizer.init _ _ _ eq_refl)
    by (try assumption; try reflexivity;
        unfold openFenceTest; rewrite Ho; reflexivity).
  rewrite (fenceLine_capture _ Hd), joinNl_splitNl. reflexivity.
Qed.

Lemma fence_block_text l code :
  forallb is_dot l = true -> forallb notCR code = true ->
  noClose (splitNl code) = true ->
  tokenize ((u "```" ++ l) ++ LF :: code ++ LF :: u "```") =
    [Code (langOf l) code]
  /\ trim ((u "```" ++ l) ++ LF :: code ++ LF :: u "```") =
       (u "```" ++ l) ++ LF :: code ++ LF :: u "```".
Proof.
  intros Hd Hcr Hc.
  assert (Hb : noBreak l = true) by (apply is_dot_noBreak, Hd).
  apply andb_prop in Hb as [HbL HbC]. split.
  - unfold tokenize. rewrite normalizeNewlines_plain.
    + rewrite splitNl_line_app by (simpl; exact HbL).
      rewrite splitNl_app_LF. apply (fence_block_tokens l code Hd Hc).
    + rewrite !forallb_app. simpl. rewrite forallb_app, HbC, Hcr.
      reflexivity.
  - change ((u "```" ++ l) ++ LF :: code ++ LF :: u "```")
      with (BACKTICK ::
            ([BACKTICK; BACKTICK] ++ l ++ LF :: code ++ LF :: u "```")).
    replace ([BACKTICK; BACKTICK] ++ l ++ LF :: code ++ LF :: u "```")
      with (([BACKTICK; BACKTICK] ++ l ++ LF :: code ++
             [LF; BACKTICK; BACKTICK]) ++ [BACKTICK]).
    + apply trim_bounded; reflexivity.
    + rewrite <- !app_assoc. simpl. rewrite <- !app_assoc. reflexivity.
Qed.

End TokenRoundTrips.

(** X11.  A text that is already normalized, has no CR, and has no
    line that is a heading or an opening fence tokenizes to one Text
    token holding exactly that text. *)
Theorem plain_text_roundtrip (text : str) :
  text <> [] ->
  forallb notCR text = true ->
  forallb plainLine (splitNl text) = true ->
  normalizeText text = text ->
  tokenize text = [Text text].
Proof.
  intros Hne Hcr Hp Hn. unfold tokenize, tokenizeLines.
  rewrite (normalizeNewlines_plain _ Hcr).
  rewrite (run_plain _ Tokenizer.init eq_refl Hp).
  unfold finish, flushText, flushOut. simpl.
  destruct (splitNl_cons text) as (l & ls & E).
  assert (Ht : trimEmptyJoin (splitNl text) = text).
  { rewrite trimEmptyJoin_normalizeText, joinNl_splitNl. exact Hn. }
  rewrite E in *. rewrite Ht. destruct text; [contradiction|reflexivity].
Qed.

Lemma plain_text_roundtrip_witness :
  tokenize (joinNl [u "  a"; []; u "b  "]) =
    [Text (joinNl [u "  a"; []; u "b  "])].
Proof.
  apply (plain_text_roundtrip (joinNl [u "  a"; []; u "b  "]));
    [discriminate | reflexivity | reflexivity | reflexivity].
Defined.

(** X12.  A code token round-trips.  Written as a fenced block (the
    opening fence with the tag, the body, the closing fence) and
    tokenized again it is the same token, provided the tag is absent
    or a trimmed non-empty tag without line terminators and the body
    has no CR and no closing-fence line; the headingless section that
    holds just this token is serialized to that block and comes back
    as the same section at every depth. *)
Theorem code_token_roundtrip
    (rnd : nat -> str) (depth : nat) (lang : option str) (code : str) :
  langWritable lang ->
  forallb notCR code = true ->
  noClose (splitNl code) = true ->
  tokenize (joinNl (partLines (Code lang code))) = [Code lang code]
  /\ segmentToMarkdown (codeSection rnd lang code) =
       joinNl (partLines (Code lang code))
  /\ toSegments rnd
       (tokenize (segmentToMarkdown (codeSection rnd lang code))) depth =
       [codeSection rnd lang code].
Proof.
  intros Hl Hcr Hc. destruct lang as [l|].
  - destruct Hl as (Hne & Ht & Hd).
    destruct (fence_block_text l code Hd Hcr Hc) as [Htok Htrim].
    rewrite (langOf_trimmed l Hne Ht) in Htok.
    assert (Hser : segmentToMarkdown (codeSection rnd (Some l) code) =
                   joinNl (partLines (Code (Some l) code))) by exact Htrim.
    assert (Htok' : tokenize (joinNl (partLines (Code (Some l) code))) =
                    [Code (Some l) code]) by exact Htok.
    split; [exact Htok'|]. split; [exact Hser|].
    rewrite Hser, Htok'. reflexivity.
  - destruct (fence_block_text [] code eq_refl Hcr Hc) as [Htok Htrim].
    assert (Hser : segmentToMarkdown (codeSection rnd None code) =
                   joinNl (partLines (Code None code))) by exact Htrim.
    assert (Htok' : tokenize (joinNl (partLines (Code None code))) =
                    [Code None code]) by exact Htok.
    split; [exact Htok'|]. split; [exact Hser|].
    rewrite Hser, Htok'. reflexivity.
Qed.

Lemma code_token_roundtrip_witness :
  tokenize (joinNl (partLines (Code (Some (u "js"))
                                 (joinNl [u "# not a heading"; u "x"])))) =
    [Code (Some (u "js")) (joinNl [u "# not a heading"; u "x"])]
  /\ segmentToMarkdown
       (codeSection r0 (Some (u "js")) (joinNl [u "# not a heading"; u "x"])) =
       joinNl (partLines (Code (Some (u "js"))
                               (joinNl [u "# not a heading"; u "x"])))
  /\ toSegments r0
       (tokenize (segmentToMarkdown
          (codeSection r0 (Some (u "js"))
             (joinNl [u "# not a heading"; u "x"])))) 2 =
     [codeSection r0 (Some (u "js")) (joinNl [u "# not a heading"; u "x"])].
Proof.
  apply (code_token_roundtrip r0 2 (Some (u "js"))
           (joinNl [u "# not a heading"; u "x"])).
  - split; [discriminate|split; reflexivity].
  - reflexivity.
  - reflexivity.
Defined.

(** * The serialized text *)

Lemma last_rev_head {A} (x : list A) : last (rev x) = head x.
Proof.
  destruct x as [|c t]; [reflexivity|]. simpl. apply last_snoc.
Qed.

Lemma trim_last_ink s d : last (trim s) = Some d -> is_space d = false.
Proof.
  unfold trim. rewrite last_rev_head.
  destruct (dropWhile is_space (rev (dropWhile is_space s))) as [|c t] eqn:E;
    [discriminate|].
  intros [= <-]. apply (dropWhile_head _ _ _ _ E).
Qed.

Lemma trim_head_ink s d : head (trim s) = Some d -> is_space d = false.
Proof.
  destruct (trim_nil_or_cons s) as [-> | (c & a & -> & Hc)]; [discriminate|].
  intros [= <-]. exact Hc.
Qed.

(** X13.  The text a section is serialized to has no whitespace at
    either end and is its own trimmed form. *)
Theorem serialized_text_is_trimmed (seg : Segment) :
  trim (segmentToMarkdown seg) = segmentToMarkdown seg
  /\ (forall d, head (segmentToMarkdown seg) = Some d -> is_space d = false)
  /\ (forall d, last (segmentToMarkdown seg) = Some d -> is_space d = false).
Proof.
  unfold segmentToMarkdown. split; [apply trim_idem|].
  split; intros d; [apply trim_head_ink | apply trim_last_ink].
Qed.

Lemma serialized_text_is_trimmed_witness :
  is_space HASH = false /\ is_space (N_of_ascii "x") = false.
Proof.
  destruct (serialized_text_is_trimmed ex_section) as (_ & Hh & Hl).
  split; [apply (Hh HASH) | apply (Hl (N_of_ascii "x"))]; reflexivity.
Defined.

(** * splitMarkdownByHeading *)

Section SplitterFacts.

Variable level : nat.

Lemma splitter_run_cons l ls st :
  splitterRun level (l :: ls) st = splitterRun level ls (Splitter.step level st l).
Proof. reflexivity. Qed.

Lemma splitter_run_app ls ms st :
  splitterRun level (ls ++ ms) st =
  splitterRun level ms (splitterRun level ls st).
Proof. apply fold_left_app. Qed.

Lemma push_good st : chunksGood st -> chunksGood (Splitter.push st).
Proof.
  intros (Hc & Hn & Hi). unfold Splitter.push.
  destruct (trim (joinNl (Splitter.buf st))) as [|d a] eqn:E.
  - repeat split; assumption.
  - repeat split; simpl.
    + apply Forall_app. split; [exact Hc|].
      constructor; [|constructor]. split; simpl; [discriminate|].
      rewrite <- E. apply trim_idem.
    + rewrite length_app. simpl. lia.
    + rewrite length_app, List.map_app, Hi, Hn. simpl.
      rewrite seq_app. reflexivity.
Qed.

Lemma pushLine_chunks line st :
  Splitter.chunks (Splitter.pushLine line st) = Splitter.chunks st
  /\ Splitter.next_id (Splitter.pushLine line st) = Splitter.next_id st.
Proof. split; reflexivity. Qed.

Lemma step_chunks_good st line :
  chunksGood st -> chunksGood (Splitter.step level st line).
Proof.
  intros H. unfold Splitter.step.
  destruct (_ || _).
  - destruct (negb (Splitter.inFence st)); [exact H|].
    destruct (Splitter.fenceChar st) as [[|]|]; try exact H;
      destruct (Splitter.startsWith3 _ _); exact H.
  - destruct (if negb (Splitter.inFence st) then _ else false);
      [|exact H].
    destruct (Splitter.buf st); [exact H|].
    apply push_good in H. exact H.
Qed.

Lemma run_chunks_good ls : forall st,
  chunksGood st -> chunksGood (splitterRun level ls st).
Proof.
  induction ls as [|l ls IH]; intros st H; [exact H|].
  rewrite splitter_run_cons. apply IH, step_chunks_good, H.
Qed.

Lemma startsWith3_markers s :
  Splitter.startsWith3 TILDE s = true ->
  Splitter.startsWith3 BACKTICK s = false.
Proof.
  destruct s as [|a [|b [|c s]]]; try discriminate. simpl. intros H.
  apply andb_prop in H as [H _]. apply andb_prop in H as [H _].
  apply N.eqb_eq in H. subst a. reflexivity.
Qed.

(** Inside a fence of style [f], a line that is no fence line of that
    style only joins the buffer. *)
Lemma step_inside_fence st f line :
  Splitter.inFence st = true -> Splitter.fenceChar st = Some f ->
  fenceLineOf f line = false ->
  Splitter.step level st line = Splitter.pushLine line st.
Proof.
  intros Hi Hf Hl. unfold Splitter.step. rewrite Hi, Hf. simpl.
  unfold fenceLineOf in Hl.
  destruct f; simpl in Hl; rewrite Hl.
  - simpl. destruct (Splitter.startsWith3 TILDE (trim line)); reflexivity.
  - rewrite orb_false_r.
    destruct (Splitter.startsWith3 BACKTICK (trim line)); reflexivity.
Qed.

Lemma run_inside_fence body : forall st f,
  Splitter.inFence st = true -> Splitter.fenceChar st = Some f ->
  forallb (fun l => negb (fenceLineOf f l)) body = true ->
  splitterRun level body st =
    {| Splitter.chunks := Splitter.chunks st;
       Splitter.buf := Splitter.buf st ++ body;
       Splitter.inFence := true; Splitter.fenceChar := Some f;
       Splitter.next_id := Splitter.next_id st |}.
Proof.
  induction body as [|l body IH]; intros st f Hi Hf H.
  - simpl. rewrite app_nil_r. destruct st; simpl in *. subst. reflexivity.
  - simpl in H. apply andb_prop in H as [Hl H].
    apply negb_true_iff in Hl.
    rewrite splitter_run_cons, (step_inside_fence st f l Hi Hf Hl).
    rewrite (IH _ f); [|exact Hi|exact Hf|exact H].
    simpl. rewrite <- app_assoc. reflexivity.
Qed.

Lemma step_fence_open st f line :
  Splitter.inFence st = false -> fenceLineOf f line = true ->
  Splitter.step level st line =
    Splitter.pushLine line (Splitter.setFence true (Some f) st).
Proof.
  intros Hi Hl. unfold Splitter.step, fenceLineOf in *. rewrite Hi.
  destruct f; simpl in Hl.
  - rewrite Hl. reflexivity.
  - rewrite Hl, (startsWith3_markers _ Hl). reflexivity.
Qed.

Lemma step_fence_close st f line :
  Splitter.inFence st = true -> Splitter.fenceChar st = Some f ->
  fenceLineOf f line = true ->
  Splitter.step level st line =
    Splitter.pushLine line (Splitter.setFence false None st).
Proof.
  intros Hi Hf Hl. unfold Splitter.step, fenceLineOf in *. rewrite Hi, Hf.
  destruct f; simpl in Hl.
  - rewrite Hl. reflexivity.
  - rewrite Hl, (startsWith3_markers _ Hl). reflexivity.
Qed.

(** A line that is no boundary heading never starts a chunk. *)
Lemma step_no_boundary st line :
  boundaryLine level line = false ->
  Splitter.chunks (Splitter.step level st line) = Splitter.chunks st
  /\ Splitter.buf (Splitter.step level st line) = Splitter.buf st ++ [line]
  /\ Splitter.next_id (Splitter.step level st line) = Splitter.next_id st.
Proof.
  intros Hb. unfold Splitter.step, boundaryLine in *.
  destruct (_ || _).
  - destruct (negb (Splitter.inFence st)); [repeat split|].
    destruct (Splitter.fenceChar st) as [[|]|]; try (repeat split; fail);
      destruct (Splitter.startsWith3 _ _); repeat split.
  - rewrite Hb. destruct (negb (Splitter.inFence st)); repeat split.
Qed.

Lemma run_no_boundary ls : forall st,
  forallb (fun l => negb (boundaryLine level l)) ls = true ->
  Splitter.chunks (splitterRun level ls st) = Splitter.chunks st
  /\ Splitter.buf (splitterRun level ls st) = Splitter.buf st ++ ls
  /\ Splitter.next_id (splitterRun level ls st) = Splitter.next_id st.
Proof.
  induction ls as [|l ls IH]; intros st H.
  - simpl. rewrite app_nil_r. repeat split.
  - simpl in H. apply andb_prop in H as [Hl H]. apply negb_true_iff in Hl.
    rewrite splitter_run_cons.
    destruct (step_no_boundary st l Hl) as (E1 & E2 & E3).
    destruct (IH (Splitter.step level st l) H) as (F1 & F2 & F3).
    rewrite F1, F2, F3, E1, E2, E3, <- app_assoc. repeat split.
Qed.

End SplitterFacts.

(** X14.  The chunks of [splitMarkdownByHeading] are numbered 1, 2, 3,
    ... in output order, and every chunk is a non-empty text without
    whitespace at either end. *)
Theorem splitter_chunks_well_formed (src : str) (level : nat) :
  List.map Splitter.chunk_id (Splitter.splitMarkdownByHeading src level) =
    seq 1 (length (Splitter.splitMarkdownByHeading src level))
  /\ Forall chunkOK (Splitter.splitMarkdownByHeading src level).
Proof.
  unfold Splitter.splitMarkdownByHeading.
  fold (splitterRun level (splitNl (normalizeNewlines src)) Splitter.init).
  assert (H : chunksGood
                (splitterRun level (splitNl (normalizeNewlines src))
                   Splitter.init)).
  { apply run_chunks_good. repeat split. constructor. }
  set (st := splitterRun level _ _) in *.
  assert (H' : chunksGood
                 (match Splitter.buf st with
                  | [] => st
                  | _ :: _ => Splitter.push st
                  end)).
  { destruct (Splitter.buf st); [exact H|apply push_good, H]. }
  destruct H' as (Hc & _ & Hi). split; assumption.
Qed.

(** X15.  A fenced block never splits a chunk in
    [splitMarkdownByHeading].  From a line whose trimmed form starts
    with three markers of one style, through lines that do not (lines
    that look like headings and fence lines of the other style
    included), to the next line that does, every line joins the
    buffer, no chunk is made, and the splitter is outside a fence
    again. *)
Theorem splitter_fenced_block_stays_whole
    (level : nat) (st : Splitter.State) (f : Splitter.FenceChar)
    (open : str) (body : list str) (close : str) :
  Splitter.inFence st = false ->
  fenceLineOf f open = true ->
  forallb (fun l => negb (fenceLineOf f l)) body = true ->
  fenceLineOf f close = true ->
  splitterRun level (open :: body ++ [close]) st =
    {| Splitter.chunks := Splitter.chunks st;
       Splitter.buf := Splitter.buf st ++ open :: body ++ [close];
       Splitter.inFence := false; Splitter.fenceChar := None;
       Splitter.next_id := Splitter.next_id st |}.
Proof.
  intros Hi Ho Hb Hc.
  rewrite splitter_run_cons, splitter_run_app.
  rewrite (step_fence_open level st f open Hi Ho).
  rewrite (run_inside_fence level body
             (Splitter.pushLine open (Splitter.setFence true (Some f) st))
             f eq_refl eq_refl Hb).
  rewrite (splitter_run_cons level close []).
  rewrite (step_fence_close level
             {| Splitter.chunks :=
                  Splitter.chunks
                    (Splitter.pushLine open (Splitter.setFence true (Some f) st));
                Splitter.buf :=
                  Splitter.buf
                    (Splitter.pushLine open (Splitter.setFence true (Some f) st))
                  ++ body;
                Splitter.inFence := true; Splitter.fenceChar := Some f;
                Splitter.next_id :=
                  Splitter.next_id
                    (Splitter.pushLine open (Splitter.setFence true (Some f) st))
             |} f close eq_refl eq_refl Hc).
  unfold Splitter.pushLine, Splitter.setFence. simpl.
  rewrite <- !app_assoc. reflexivity.
Qed.

Lemma splitter_fenced_block_stays_whole_witness :
  splitterRun 2 (u "~~~sh" :: [u "# inside"; u "```"; u "## also"] ++ [u " ~~~ "])
    Splitter.init =
    {| Splitter.chunks := []; 
       Splitter.buf := [u "~~~sh"; u "# inside"; u "```"; u "## also"; u " ~~~ "];
       Splitter.inFence := false; Splitter.fenceChar := None;
       Splitter.next_id := 1 |}.
Proof.
  apply (splitter_fenced_block_stays_whole 2 Splitter.init Splitter.FTilde
           (u "~~~sh") [u "# inside"; u "```"; u "## also"] (u " ~~~ "));
    reflexivity.
Defined.

(** X16.  A source without any heading line of level at most [level]
    comes back as one chunk, numbered 1, holding the whole text with
    unified line endings and trimmed; it gives no chunk at all when
    that text is blank. *)
Theorem splitter_without_boundary (src : str) (level : nat) :
  forallb (fun l => negb (boundaryLine level l))
    (splitNl (normalizeNewlines src)) = true ->
  Splitter.splitMarkdownByHeading src level =
    match trim (normalizeNewlines src) with
    | [] => []
    | _ :: _ => [Splitter.mkChunk 1 (trim (normalizeNewlines src))]
    end.
Proof.
  intros H. unfold Splitter.splitMarkdownByHeading.
  fold (splitterRun level (splitNl (normalizeNewlines src)) Splitter.init).
  destruct (run_no_boundary level _ Splitter.init H) as (E1 & E2 & E3).
  set (st := splitterRun level _ _) in *. simpl in E1, E2, E3.
  destruct (splitNl_cons (normalizeNewlines src)) as (l & ls & E).
  rewrite E in E2. rewrite E2. unfold Splitter.push.
  rewrite E2, <- E, joinNl_splitNl, E1, E3.
  destruct (trim (normalizeNewlines src)); reflexivity.
Qed.

Lemma splitter_without_boundary_witness :
  Splitter.splitMarkdownByHeading (joinNl [[]; u "### deep"; u "text "; []]) 2 =
    [Splitter.mkChunk 1 (joinNl [u "### deep"; u "text"])].
Proof.
  apply (splitter_without_boundary (joinNl [[]; u "### deep"; u "text "; []]) 2).
  reflexivity.
Defined.

(** * More on the copy tiers *)

(** X17.  [smartCopy] never throws: its outcome is that of the first
    tier that works, the manual one when neither automatic tier does;
    and whatever it hands to [writeText] or to the manual callback is
    the text it was given. *)
Theorem smartCopy_outcome (env : Env) (text : str) (d : Dom) :
  resultOf (smartCopy env text d) = Ret (firstWorkingTier env)
  /\ Forall (carries text) (callsOf (smartCopy env text d)).
Proof.
  destruct env as [[|] [|] [|] [|] [|] [|] [|[|]|]];
    (split; [reflexivity|]); cbv; repeat constructor.
Qed.

(** X18.  [copyWithExecCommand] never throws: on every platform it
    returns [true] exactly when every step works and the command
    reports success, and it creates at most one node.  When neither
    [select] nor the command throws, the children of [document.body]
    are afterwards what they were before. *)
Theorem legacy_tier_returns_and_cleans (env : Env) (text : str) (d : Dom) :
  resultOf (copyWithExecCommand env text d) = Ret (legacyOk env)
  /\ nextNode (domOf (copyWithExecCommand env text d)) <= S (nextNode d)
  /\ (domFresh d ->
      selectThrows env = false ->
      exec env <> ExecThrows ->
      body (domOf (copyWithExecCommand env text d)) = body d).
Proof.
  split; [apply copyWithExecCommand_result|].
  split; [|apply copyWithExecCommand_restores].
  destruct env as [hc sc wr [|] [|] [|] [|[|]|]]; cbv; lia.
Qed.

Lemma legacy_tier_returns_and_cleans_witness :
  resultOf (copyWithExecCommand
              (mkEnv false false false false false false (ExecReturns false))
              (u "hi") (mkDom [mkElem 0 (u "x") false None None] 1)) =
    Ret false
  /\ body (domOf (copyWithExecCommand
              (mkEnv false false false false false false (ExecReturns false))
              (u "hi") (mkDom [mkElem 0 (u "x") false None None] 1))) =
     [mkElem 0 (u "x") false None None].
Proof.
  destruct (legacy_tier_returns_and_cleans
              (mkEnv false false false false false false (ExecReturns false))
              (u "hi") (mkDom [mkElem 0 (u "x") false None None] 1))
    as (H1 & _ & H3).
  split; [exact H1|]. apply H3.
  - repeat constructor.
  - reflexivity.
  - discriminate.
Defined.

(** X19.  [copyText] of main.tsx returns [true] when the native write
    works and otherwise what the copy command reports; unlike
    [smartCopy] it throws when a step of the fallback throws or the
    command is missing.  When it returns, the children of
    [document.body] are what they were before. *)
Theorem copyText_behaviour (env : Env) (text : str) (d : Dom) :
  domFresh d ->
  resultOf (copyText env text d) = copyTextResult env
  /\ (forall ok, resultOf (copyText env text d) = Ret ok ->
      body (domOf (copyText env text d)) = body d).
Proof.
  intros Hf.
  split.
  - destruct env as [[|] sc [|] [|] [|] [|] [|[|]|]]; reflexivity.
  - intros ok.
    destruct env as [[|] sc [|] [|] [|] [|] [|ok'|]];
      try (intros H; discriminate H); try reflexivity; intros _;
      cbv [copyText tryCatch bind createElement appendChild select
           execCommandCopy removeChild call ret throw freshElem writeText
           attach detach domOf fst snd createElementThrows appendChildThrows
           selectThrows exec body nextNode node hasClipboard
           writeTextResolves];
      rewrite List.filter_app; simpl; rewrite Nat.eqb_refl; simpl;
      rewrite app_nil_r; apply filter_fresh_node; exact Hf.
Qed.

Lemma copyText_behaviour_witness :
  resultOf (copyText envExecThrows (u "hi") (mkDom [] 0)) = Throw DomError.
Proof.
  destruct (copyText_behaviour envExecThrows (u "hi") (mkDom [] 0)) as [H _].
  - constructor.
  - exact H.
Defined.

(** * extractLang *)

Lemma matchLanguage_sound s : forall t,
  matchLanguage s = Some t -> t <> [] /\ forallb isLangChar t = true.
Proof.
  induction s as [|c s IH]; intros t; [discriminate|].
  cbn [matchLanguage].
  destruct (if isPrefixOf (u "language-") (c :: s)
            then takeWhile isLangChar (drop 9 (c :: s)) else []) as [|x r] eqn:E.
  - apply IH.
  - intros [= <-]. split; [discriminate|].
    destruct (isPrefixOf (u "language-") (c :: s)); [|discriminate].
    rewrite <- E. apply takeWhile_all.
Qed.

(** X20.  [extractLang] gives nothing for a missing or empty class
    name; a tag it gives is never empty and holds only letters, digits
    and the signs [#], [.], [+], [-]; and from the class name made of
    [language-] and such a tag, followed by nothing or by a unit
    outside that class, it gives back exactly the tag. *)
Theorem extractLang_tag (className : option str) (tag rest t : str) :
  extractLang None = None /\ extractLang (Some []) = None
  /\ (extractLang className = Some t ->
      t <> [] /\ forallb isLangChar t = true)
  /\ (tag <> [] -> forallb isLangChar tag = true ->
      takeWhile isLangChar rest = [] ->
      extractLang (Some (u "language-" ++ tag ++ rest)) = Some tag).
Proof.
  split; [reflexivity|]. split; [reflexivity|]. split.
  - destruct className as [[|c s]|]; try discriminate.
    apply matchLanguage_sound.
  - intros Hne Ht Hr.
    change (extractLang (Some (u "language-" ++ tag ++ rest)))
      with (match takeWhile isLangChar (tag ++ rest) with
            | [] => matchLanguage (List.tl (u "language-" ++ tag ++ rest))
            | run => Some run
            end).
    rewrite (takeWhile_app_all _ _ _ Ht), Hr, app_nil_r.
    destruct tag; [contradiction|reflexivity].
Qed.

Lemma extractLang_tag_witness :
  extractLang (Some (u "language-" ++ u "c++" ++ u " hljs")) = Some (u "c++").
Proof.
  destruct (extractLang_tag None (u "c++") (u " hljs") []) as (_ & _ & _ & H).
  apply H; [discriminate | reflexivity | reflexivity].
Defined.

(** * More round trips and the empty input *)

(** X21.  A headingless section that holds one text token round-trips
    when its text is normalized, has no whitespace at either end, no
    CR, and no line that is a heading or an opening fence: it is
    serialized to exactly its text and comes back as the same section
    at every depth. *)
Theorem text_section_roundtrip
    (rnd : nat -> str) (depth : nat) (text : str) :
  text <> [] ->
  trim text = text ->
  forallb notCR text = true ->
  forallb plainLine (splitNl text) = true ->
  normalizeText text = text ->
  segmentToMarkdown (textSection rnd text) = text
  /\ toSegments rnd (tokenize (segmentToMarkdown (textSection rnd text))) depth =
       [textSection rnd text].
Proof.
  intros Hne Ht Hcr Hp Hn.
  assert (Hser : segmentToMarkdown (textSection rnd text) = text) by exact Ht.
  split; [exact Hser|]. rewrite Hser.
  assert (Htok : tokenize text = [Text text]).
  { unfold tokenize, tokenizeLines.
    rewrite (normalizeNewlines_plain _ Hcr).
    rewrite (run_plain _ Tokenizer.init eq_refl Hp).
    unfold finish, flushText, flushOut. simpl.
    destruct (splitNl_cons text) as (l & ls & E).
    assert (Hj : trimEmptyJoin (splitNl text) = text).
    { rewrite trimEmptyJoin_normalizeText, joinNl_splitNl. exact Hn. }
    rewrite E in *. rewrite Hj. destruct text; [contradiction|reflexivity]. }
  rewrite Htok. reflexivity.
Qed.

Lemma text_section_roundtrip_witness :
  segmentToMarkdown (textSection r0 (joinNl [u "a"; []; u " - b"])) =
    joinNl [u "a"; []; u " - b"]
  /\ toSegments r0
       (tokenize (segmentToMarkdown
                    (textSection r0 (joinNl [u "a"; []; u " - b"])))) 3 =
     [textSection r0 (joinNl [u "a"; []; u " - b"])].
Proof.
  apply (text_section_roundtrip r0 3 (joinNl [u "a"; []; u " - b"]));
    [discriminate | reflexivity | reflexivity | reflexivity | reflexivity].
Defined.

Lemma normalizeNewlines_breaks_bounded n : forall s,
  length s <= n -> forallb isBreak s = true ->
  forallb isLF (normalizeNewlines s) = true.
Proof.
  induction n as [|n IH]; intros s Hn H.
  - destruct s; [reflexivity|simpl in Hn; lia].
  - destruct s as [|c s]; [reflexivity|]. simpl in Hn, H.
    apply andb_prop in H as [Hc H].
    destruct (N.eqb c CR) eqn:Ec.
    + apply N.eqb_eq in Ec. subst c.
      destruct s as [|d s]; [reflexivity|]. simpl in Hn.
      destruct (N.eqb_spec d LF) as [->|Hd].
      * change (normalizeNewlines (CR :: LF :: s))
          with (LF :: normalizeNewlines s).
        simpl in H. apply forallb_cons_intro; [reflexivity|].
        apply IH; [lia|exact H].
      * rewrite normalizeNewlines_CR_step by (simpl; congruence).
        apply forallb_cons_intro; [reflexivity|].
        apply IH; [simpl; lia|exact H].
    + rewrite (normalizeNewlines_other c s Ec).
      apply forallb_cons_intro.
      * unfold isBreak in Hc. rewrite Ec, orb_false_r in Hc. exact Hc.
      * apply IH; [lia|exact H].
Qed.

Lemma splitNl_LFs s :
  forallb isLF s = true -> splitNl s = repeat [] (S (length s)).
Proof.
  induction s as [|c s IH]; intros H; [reflexivity|].
  simpl in H. apply andb_prop in H as [Hc H]. unfold isLF in Hc.
  simpl. rewrite Hc, (IH H). reflexivity.
Qed.

Lemma plainLine_blank k : forallb plainLine (repeat [] k) = true.
Proof. apply forallb_repeat. reflexivity. Qed.

Lemma tokenizeLines_blank k : tokenizeLines (repeat [] k) = [].
Proof.
  unfold tokenizeLines.
  rewrite (run_plain _ Tokenizer.init eq_refl (plainLine_blank k)).
  unfold finish, flushText, flushOut. simpl.
  assert (E : trimEmptyJoin (repeat [] k) = []).
  { rewrite <- (app_nil_r (repeat [] k)), trimEmptyJoin_leading.
    reflexivity. }
  rewrite E. destruct (repeat [] k); reflexivity.
Qed.

(** X22.  A source made only of line breaks (the empty source
    included) has no tokens and no sections. *)
Theorem blank_source_has_no_tokens
    (rnd : nat -> str) (depth : nat) (md : str) :
  forallb isBreak md = true ->
  tokenize md = [] /\ toSegments rnd (tokenize md) depth = [].
Proof.
  intros H.
  assert (E : tokenize md = []).
  { unfold tokenize.
    rewrite (splitNl_LFs _
               (normalizeNewlines_breaks_bounded (length md) md
                  (Nat.le_refl _) H)).
    apply tokenizeLines_blank. }
  split; [exact E|]. rewrite E. reflexivity.
Qed.

Lemma blank_source_has_no_tokens_witness :
  tokenize [CR; LF; LF; CR] = []
  /\ toSegments r0 (tokenize [CR; LF; LF; CR]) 2 = [].
Proof.
  apply (blank_source_has_no_tokens r0 2 [CR; LF; LF; CR]). reflexivity.
Defined.

(** * Text runs on emission *)

Section TextRunFacts.







End TextRunFacts.



